(** * Bilateral image filters of VisionCore (Image/FiltersGPU.cpp)

    A shallow embedding of the two CUDA kernels [Kernel_bilateral] and
    [Kernel_bilateralLimited] and of the two host entry points
    [vc::image::bilateral] that launch them, with the properties the
    specification states of them.

    Conventions of the embedding.

    - The only instantiation the source materialises is [GEN_IMPL(float)], so
      the scalar type [T] is IEEE-754 binary32, taken from the Standard
      Library's [SpecFloat] with [prec = 24] and [emax = 128]: every
      operation of the source is one operation here, rounded to nearest-even
      on its own (no fused multiply-add, no flushing of subnormals), [0/0]
      is NaN, comparisons with NaN are false.
    - [exp] is the device's native exponential.  It is not part of the
      source file, so it is a parameter of every definition; the properties
      of it that a proof needs are collected in [expf_spec], and [expf] is a
      reference exponential that meets them, for running the kernels.
    - [int] is a 32-bit two's complement integer with its wrap-around written
      out ([wrap_int]): [(int)dim] wraps, and so would [r*r + c*c], which
      C++ leaves undefined on overflow (no overflow occurs for
      [dim <= 32767]).  [std::size_t] values and coordinates are integers of
      [Z].  A loop [for(int r = lo; r <= hi; ++r)] visits [lo, ..., hi].
    - A [Buffer2DView] is a width, a height and the samples it refers to,
      indexed by coordinates.  The input and the output view refer to
      disjoint storage: they are two values.  The clamped read takes the
      coordinate [x + c] as the integer it denotes.
    - A kernel launch runs the kernel body once per thread of the grid, one
      thread after the other; every thread writes its own pixel only and
      reads the input view only, so the order does not matter.
    - The two overloads of [vc::image::bilateral] are [bilateral] and
      [bilateralLimited]. *)

From Stdlib Require Import ZArith List Bool String Lia Permutation.
From Stdlib Require Import Floats.SpecFloat.
Import ListNotations.
Local Open Scope Z_scope.

(** ** The scalar type [T = float] *)

Definition prec : Z := 24.
Definition emax : Z := 128.

Definition T : Type := spec_float.

Definition Tadd : T -> T -> T := SFadd prec emax.
Definition Tsub : T -> T -> T := SFsub prec emax.
Definition Tmul : T -> T -> T := SFmul prec emax.
Definition Tdiv : T -> T -> T := SFdiv prec emax.
Definition Topp : T -> T := SFopp.

(** [a >= b], [a < b], [a <= b] and [a == b] of C++ on floats. *)
Definition Tge (a b : T) : bool := SFleb b a.
Definition Tlt (a b : T) : bool := SFltb a b.
Definition Tle (a b : T) : bool := SFleb a b.
Definition Teq (a b : T) : bool := SFeqb a b.

(** [T(0.0)], [T(2.0)] and the value [1.0f]. *)
Definition T0 : T := S754_zero false.
Definition T2 : T := S754_finite false 8388608 (-22).
Definition T1 : T := S754_finite false 8388608 (-23).
Definition NaN : T := S754_nan.

Definition is_nan (a : T) : bool :=
  match a with S754_nan => true | _ => false end.

Definition is_finite (a : T) : bool :=
  match a with S754_zero _ | S754_finite _ _ _ => true | _ => false end.

(** ** 32-bit [int] arithmetic *)

Definition wrap_int (z : Z) : Z := (z + 2 ^ 31) mod 2 ^ 32 - 2 ^ 31.

(** [(int)dim] for a [std::size_t dim]. *)
Definition int_of_size_t (n : Z) : Z := wrap_int n.
Definition int_neg (a : Z) : Z := wrap_int (- a).
Definition int_add (a b : Z) : Z := wrap_int (a + b).
Definition int_mul (a b : Z) : Z := wrap_int (a * b).

(** The conversion [int -> T] of [const T sd2 = r*r + c*c]. *)
Definition T_of_int (z : Z) : T := binary_normalize prec emax z 0 false.

(** The values [r] takes in [for(int r = lo; r <= hi; ++r)]. *)
Definition int_range (lo hi : Z) : list Z :=
  map (fun k => lo + Z.of_nat k) (seq 0 (Z.to_nat (hi + 1 - lo))).

(** ** Image views *)

(** Modelled from the spec: [vc::Buffer2DView] is declared in
    VisionCore/Buffers/Buffer2D.hpp, which is not part of the sources.  The
    spec (section 3) gives it a width, a height, an in-bounds test, indexed
    read and write, and a clamped-coordinate read. *)
Record Buffer2DView : Type := mkView {
  width : Z;
  height : Z;
  sample : Z -> Z -> T
}.

Definition shape (v : Buffer2DView) : Z * Z := (width v, height v).

Definition inBounds (v : Buffer2DView) (x y : Z) : bool :=
  (0 <=? x) && (x <? width v) && (0 <=? y) && (y <? height v).

(** [v(x,y)] read. *)
Definition get (v : Buffer2DView) (x y : Z) : T := sample v x y.

(** [v(x,y) = a]. *)
Definition put (v : Buffer2DView) (x y : Z) (a : T) : Buffer2DView :=
  mkView (width v) (height v)
         (fun i j => if (i =? x) && (j =? y) then a else sample v i j).

Definition clamp (a lo hi : Z) : Z := Z.max lo (Z.min a hi).

(** Modelled from the spec: "when (x, y) lies outside the rectangle, the
    nearest in-bounds coordinate is substituted (edge-replication border)". *)
Definition getWithClampedRange (v : Buffer2DView) (x y : Z) : T :=
  get v (clamp x 0 (width v - 1)) (clamp y 0 (height v - 1)).

(** An image given by its rows, as in the scenarios of the spec. *)
Definition of_rows (rows : list (list T)) : Buffer2DView :=
  mkView (Z.of_nat (List.length (hd [] rows))) (Z.of_nat (List.length rows))
         (fun x y =>
            if (0 <=? x) && (0 <=? y)
            then nth (Z.to_nat x) (nth (Z.to_nat y) rows []) T0
            else T0).

(** A view of a given shape whose samples all hold [a]. *)
Definition constant_view (w h : Z) (a : T) : Buffer2DView :=
  mkView w h (fun _ _ => a).

(** ** Launch geometry *)

Record dim3 : Type := mkDim3 { dim_x : Z; dim_y : Z }.

(** Modelled from the spec: [vc::InitDimFromBufferOver] is declared in
    VisionCore/LaunchUtils.hpp, which is not part of the sources.  The spec
    (section 4.3) has a fixed 32x32 tile and a grid rounded up so that every
    pixel is covered. *)
Definition InitDimFromBufferOver (img : Buffer2DView) : dim3 * dim3 :=
  let blockDim := mkDim3 32 32 in
  let gridDim := mkDim3 ((width img + dim_x blockDim - 1) / dim_x blockDim)
                        ((height img + dim_y blockDim - 1) / dim_y blockDim) in
  (blockDim, gridDim).

(** The indices [0 .. n-1]. *)
Definition indices (n : Z) : list Z := map Z.of_nat (seq 0 (Z.to_nat n)).

(** The (blockIdx, threadIdx) pairs of a launch [<<<gridDim, blockDim>>>]. *)
Definition threads (gridDim blockDim : dim3) : list (dim3 * dim3) :=
  flat_map (fun by_ =>
  flat_map (fun bx =>
  flat_map (fun ty =>
       map (fun tx => (mkDim3 bx by_, mkDim3 tx ty))
           (indices (dim_x blockDim)))
           (indices (dim_y blockDim)))
           (indices (dim_x gridDim)))
           (indices (dim_y gridDim)).

(** A kernel body: block index, block shape, thread index, output view. *)
Definition kernel : Type := dim3 -> dim3 -> dim3 -> Buffer2DView -> Buffer2DView.

(** [K<<<gridDim, blockDim>>>(...)]. *)
Definition launch (K : kernel) (gridDim blockDim : dim3) (img_out : Buffer2DView)
  : Buffer2DView :=
  fold_left (fun o bt => K (fst bt) blockDim (snd bt) o)
            (threads gridDim blockDim) img_out.

(** ** Host side: exceptions and the device *)

Definition cudaError : Type := Z.
Definition cudaSuccess : cudaError := 0.

Inductive exception : Type :=
| runtime_error (what : string)
| CUDAException (err : cudaError) (what : string).

Definition what (e : exception) : string :=
  match e with runtime_error s => s | CUDAException _ s => s end.

Inductive device_event : Type :=
| KernelLaunch (gridDim blockDim : dim3)
| DeviceSynchronize.

(** What a call can change: the samples behind the output view, and the
    work the device was given. *)
Record device : Type := mkDevice {
  img_out : Buffer2DView;
  events : list device_event
}.

Inductive outcome : Type :=
| Returned
| Thrown (e : exception).

Section Filters.

(** The device's exponential on [T]. *)
Variable exp : T -> T.

(** ** The kernels *)

(** Lines 61-67 (and 120-128): the weight of the neighbour [q] at offset
    [(c, r)] for the centre value [p]. *)
Definition weight (gs gr p q : T) (r c : Z) : T :=
  let sd2 := T_of_int (int_add (int_mul r r) (int_mul c c)) in
  let id := Tsub p q in
  let id2 := Tmul id id in
  let sw := exp (Tdiv (Topp sd2) (Tmul (Tmul T2 gs) gs)) in
  let iw := exp (Tdiv (Topp id2) (Tmul (Tmul T2 gr) gr)) in
  Tmul sw iw.

(** Lines 68-69: [sumw += w; sum += w * q;] on the pair [(sum, sumw)]. *)
Definition accumulate (acc : T * T) (w q : T) : T * T :=
  let sumw := Tadd (snd acc) w in
  let sum := Tadd (fst acc) (Tmul w q) in
  (sum, sumw).

(** Body of the inner loop of [Kernel_bilateral]. *)
Definition bilateral_step (img_in : Buffer2DView) (gs gr p : T) (x y r : Z)
           (acc : T * T) (c : Z) : T * T :=
  let q := getWithClampedRange img_in (x + c) (y + r) in
  accumulate acc (weight gs gr p q r c) q.

(** Lines 53-71: the accumulators [(sum, sumw)] after the two loops. *)
Definition bilateral_sums (img_in : Buffer2DView) (gs gr : T) (dim x y : Z) : T * T :=
  let p := get img_in x y in
  let d := int_of_size_t dim in
  fold_left (fun acc r =>
    fold_left (bilateral_step img_in gs gr p x y r) (int_range (int_neg d) d) acc)
    (int_range (int_neg d) d) (T0, T0).

(** Modelled from the spec: [vc::SharedMemory<float>] is declared outside
    the sources; the kernel is launched without dynamic shared memory, so
    what [smem(0)] reads is not initialised.  [smem] is that content. *)
Definition SharedMemory : Type := Z -> T.

Definition Kernel_bilateral (img_in : Buffer2DView) (gs gr : T) (dim : Z)
           (smem : SharedMemory) : kernel :=
  fun blockIdx blockDim threadIdx img_out =>
  let x := dim_x blockIdx * dim_x blockDim + dim_x threadIdx in
  let y := dim_y blockIdx * dim_y blockDim + dim_y threadIdx in
  if inBounds img_in x y then
    let '(sum, sumw) := bilateral_sums img_in gs gr dim x y in
    let img_out := put img_out x y (Tdiv sum sumw) in
    put img_out x y (smem 0)
  else img_out.

(** Body of the inner loop of [Kernel_bilateralLimited]. *)
Definition bilateralLimited_step (img_in : Buffer2DView) (gs gr minval p : T)
           (x y r : Z) (acc : T * T) (c : Z) : T * T :=
  let q := getWithClampedRange img_in (x + c) (y + r) in
  if Tge q minval then accumulate acc (weight gs gr p q r c) q else acc.

(** Lines 111-134: the accumulators [(sum, sumw)] before the division. *)
Definition bilateralLimited_sums (img_in : Buffer2DView) (gs gr minval : T)
           (dim x y : Z) : T * T :=
  let p := get img_in x y in
  let d := int_of_size_t dim in
  if Tge p minval then
    fold_left (fun acc r =>
      fold_left (bilateralLimited_step img_in gs gr minval p x y r)
                (int_range (int_neg d) d) acc)
      (int_range (int_neg d) d) (T0, T0)
  else (T0, T0).

Definition Kernel_bilateralLimited (img_in : Buffer2DView) (gs gr minval : T)
           (dim : Z) : kernel :=
  fun blockIdx blockDim threadIdx img_out =>
  let x := dim_x blockIdx * dim_x blockDim + dim_x threadIdx in
  let y := dim_y blockIdx * dim_y blockDim + dim_y threadIdx in
  if inBounds img_in x y then
    let '(sum, sumw) := bilateralLimited_sums img_in gs gr minval dim x y in
    put img_out x y (Tdiv sum sumw)
  else img_out.

(** ** The host entry points *)

(** What the environment decides in a call: the content of each block's
    shared memory and the status [cudaDeviceSynchronize] returns. *)
Record environment : Type := mkEnv {
  smem_of : dim3 -> SharedMemory;
  sync_status : cudaError
}.

Definition dims_match (a b : Buffer2DView) : bool :=
  (width a =? width b) && (height a =? height b).

(** [vc::image::bilateral(img_in, img_out, gs, gr, dim)]. *)
Definition bilateral (img_in : Buffer2DView) (gs gr : T) (dim : Z)
           (env : environment) (d : device) : outcome * device :=
  if negb (dims_match img_in (img_out d)) then
    (Thrown (runtime_error "In/Out dimensions don't match"), d)
  else
    let '(blockDim, gridDim) := InitDimFromBufferOver img_in in
    let o := launch (fun b => Kernel_bilateral img_in gs gr dim (smem_of env b) b)
                    gridDim blockDim (img_out d) in
    let d := mkDevice o (events d ++ [KernelLaunch gridDim blockDim; DeviceSynchronize]) in
    if negb (sync_status env =? cudaSuccess) then
      (Thrown (CUDAException (sync_status env) "Error launching the kernel"), d)
    else (Returned, d).

(** [vc::image::bilateral(img_in, img_out, gs, gr, minval, dim)]. *)
Definition bilateralLimited (img_in : Buffer2DView) (gs gr minval : T) (dim : Z)
           (env : environment) (d : device) : outcome * device :=
  if negb (dims_match img_in (img_out d)) then
    (Thrown (runtime_error "In/Out dimensions don't match"), d)
  else
    let '(blockDim, gridDim) := InitDimFromBufferOver img_in in
    let o := launch (Kernel_bilateralLimited img_in gs gr minval dim)
                    gridDim blockDim (img_out d) in
    let d := mkDevice o (events d ++ [KernelLaunch gridDim blockDim; DeviceSynchronize]) in
    if negb (sync_status env =? cudaSuccess) then
      (Thrown (CUDAException (sync_status env) "Error launching the kernel"), d)
    else (Returned, d).

End Filters.

(** ** Vocabulary of the properties *)

(** Coordinates of the thread [(blockIdx, threadIdx)]. *)
Definition thread_x (blockDim : dim3) (bt : dim3 * dim3) : Z :=
  dim_x (fst bt) * dim_x blockDim + dim_x (snd bt).

Definition thread_y (blockDim : dim3) (bt : dim3 * dim3) : Z :=
  dim_y (fst bt) * dim_y blockDim + dim_y (snd bt).

(** A kernel whose thread at [(x, y)] writes [val b x y] to its own pixel
    when [guard x y] holds, and writes nothing otherwise. *)
Definition writes_own_pixel (K : kernel) (guard : Z -> Z -> bool)
           (val : dim3 -> Z -> Z -> T) : Prop :=
  forall b bd t o,
    let x := thread_x bd (b, t) in
    let y := thread_y bd (b, t) in
    width (K b bd t o) = width o /\
    height (K b bd t o) = height o /\
    forall i j,
      get (K b bd t o) i j =
      if guard x y && ((i =? x) && (j =? y)) then val b x y else get o i j.

(** The threads [l] of a launch, run one after the other in the order of
    [l]; [launch] runs [threads gridDim blockDim] in this way. *)
Definition run_threads (K : kernel) (blockDim : dim3) (l : list (dim3 * dim3))
           (img_out : Buffer2DView) : Buffer2DView :=
  fold_left (fun o bt => K (fst bt) blockDim (snd bt) o) l img_out.

(** The block a pixel belongs to under the launcher's 32x32 tiling. *)
Definition block_of (x y : Z) : dim3 := mkDim3 (x / 32) (y / 32).

(** The quotient line 73 (and line 136) computes. *)
Definition quotient (sums : T * T) : T := Tdiv (fst sums) (snd sums).

(** *** Ranges of values of [T]

    [signed s a]: [a] is a zero, or is finite or infinite with sign [s]; in
    particular it is not NaN.  For a positive finite [m * 2^e], [mag m e] is
    the exponent with [2^(mag - 1) <= m * 2^e < 2^mag].  [ge_pow2 k a] is
    [2^k <= a] (with [a] possibly [+inf]) and [le_pow2 k a] is
    [0 <= a <= 2^k]. *)

Definition signed (s : bool) (a : T) : bool :=
  match a with
  | S754_zero _ => true
  | S754_finite s' _ _ | S754_infinity s' => Bool.eqb s s'
  | S754_nan => false
  end.

Definition mag (m : positive) (e : Z) : Z := Zdigits2 (Zpos m) + e.

Definition ge_pow2 (k : Z) (a : T) : bool :=
  match a with
  | S754_infinity false => true
  | S754_finite false m e => k + 1 <=? mag m e
  | _ => false
  end.

Definition le_pow2 (k : Z) (a : T) : bool :=
  match a with
  | S754_zero _ => true
  | S754_finite false m e =>
      (mag m e <=? k) || ((mag m e =? k + 1) && (Zpos m =? 2 ^ Z.log2 (Zpos m)))
  | _ => false
  end.

(** [m * 2^e <= 2^k] for a mantissa [m >= 0], on digits. *)
Definition le_pow2_int (k m e : Z) : Prop :=
  m = 0 \/ (0 < m /\ (Zdigits2 m + e <= k \/ (Zdigits2 m + e = k + 1 /\ m = 2 ^ Z.log2 m))).

(** A positive finite value: neither zero, infinite nor NaN. *)
Definition pos_finite (a : T) : bool :=
  match a with S754_finite false _ _ => true | _ => false end.

(** A positive value, possibly [+inf]: neither zero nor NaN. *)
Definition pos_value (a : T) : bool :=
  match a with S754_finite false _ _ | S754_infinity false => true | _ => false end.

(** ** The exponential

    What the properties below assume of the device's exponential: it maps
    both zeros to [1], and every value with the sign bit set (from [-inf] up
    to [-0]) into [[0, 1]]. *)
Record expf_spec (exp : T -> T) : Prop := mk_expf_spec {
  exp_zero : forall s, exp (S754_zero s) = T1;
  exp_nonpos : forall a, signed true a = true -> le_pow2 0 (exp a) = true
}.

(** [ln 2], scaled by [2^64]. *)
Definition LN2 : Z := 12786308645202655660.

(** [acc + sum of term * (R/2^64)^j / (i (i+1) ... (i+j-1))] for [j = 1 .. n]:
    the Taylor series of the exponential on 64-bit fixed-point numbers. *)
Fixpoint taylor (n : nat) (i : Z) (term acc R : Z) : Z :=
  match n with
  | O => acc
  | S n' =>
      let term' := (term * R) / (i * 2 ^ 64) in
      taylor n' (i + 1) term' (acc + term') R
  end.

(** Modelled from the spec: the "native exponential" of [T] (section 4.4) is
    the device's, not part of the sources.  [expf] is a reference
    exponential for binary32, used to run the kernels on concrete inputs:
    the argument is reduced by a multiple [k] of [ln 2], the series is
    summed in 64-bit fixed point and the result is rounded once.  For a
    negative argument the sum is capped at the bound that holds for the
    exact series, which makes [expf_spec] evident. *)
Definition expf (a : T) : T :=
  match a with
  | S754_nan => NaN
  | S754_zero _ => T1
  | S754_infinity s => if s then T0 else S754_infinity false
  | S754_finite s m e =>
      if 8 <=? mag m e then (if s then T0 else S754_infinity false)
      else
        let X := cond_Zopp s (Z.shiftl (Zpos m) (e + 64)) in
        let k := (2 * X + LN2) / (2 * LN2) in
        let R := X - k * LN2 in
        let E := taylor 20 1 (2 ^ 64) (2 ^ 64) R in
        let cap := if s then (if k =? 0 then 2 ^ 64 else 2 ^ 65) else E in
        binary_normalize prec emax (Z.max 0 (Z.min E cap)) (k - 64) false
  end.

(** *** Rounding, restated on integers *)

(** The result [binary_round_aux] builds from the final mantissa and exponent. *)
Definition round_result (sx : bool) (m e : Z) : T :=
  match m with
  | Z0 => S754_zero sx
  | Zpos p => if e <=? emax - prec then S754_finite sx p e else S754_infinity sx
  | Zneg _ => S754_nan
  end.

Definition shift_m (m s : Z) : Z := if 0 <? s then m / 2 ^ s else m.
Definition shift_e (e s : Z) : Z := if 0 <? s then e + s else e.

(** ** Inputs of the scenarios *)

(** The binary32 value of [z * 2^e]. *)
Definition T_of_dyadic (z e : Z) : T := binary_normalize prec emax z e false.

(** S1: [[1,2],[3,4]]. *)
Definition S1_image : Buffer2DView :=
  of_rows [[T_of_int 1; T_of_int 2]; [T_of_int 3; T_of_int 4]].

(** S2: 5x5 of value 7.0. *)
Definition S2_image : Buffer2DView := constant_view 5 5 (T_of_int 7).

(** S5: centre 10, four-neighbours -1, corners 10. *)
Definition S5_image : Buffer2DView :=
  of_rows [[T_of_int 10; T_of_int (-1); T_of_int 10];
           [T_of_int (-1); T_of_int 10; T_of_int (-1)];
           [T_of_int 10; T_of_int (-1); T_of_int 10]].


(** The nine samples of S5, one row lower and one column further right,
    inside a 4x4 image. *)
Definition S5_shifted : Buffer2DView :=
  of_rows [[T0; T0; T0; T0];
           [T0; T_of_int 10; T_of_int (-1); T_of_int 10];
           [T0; T_of_int (-1); T_of_int 10; T_of_int (-1)];
           [T0; T_of_int 10; T_of_int (-1); T_of_int 10]].

(** Two zeros of either sign on the diagonal, -1 elsewhere. *)
Definition zeros_image : Buffer2DView :=
  of_rows [[T0; T_of_int (-1)]; [T_of_int (-1); S754_zero true]].

(** An output view of the given shape, zero-filled, on an idle device. *)
Definition fresh_device (w h : Z) : device := mkDevice (constant_view w h T0) [].

(** An environment whose shared memory holds [a] everywhere and whose
    synchronisation succeeds. *)
Definition env_smem (a : T) : environment := mkEnv (fun _ _ => a) cudaSuccess.

(** "The error message carries both shapes": the shapes of the two views
    can be read back from the message of the [runtime_error] a call throws. *)
Definition carries_shapes (call : Buffer2DView -> device -> outcome * device) : Prop :=
  exists decode : string -> (Z * Z) * (Z * Z),
    forall img_in d msg,
      fst (call img_in d) = Thrown (runtime_error msg) ->
      decode msg = (shape img_in, shape (img_out d)).

(** Closed facts are settled by running the definitions. *)
Ltac by_evaluation := vm_compute; reflexivity.

(** * Properties *)

(** ** Views *)

Lemma get_put (v : Buffer2DView) (x y : Z) (a : T) (i j : Z) :
  get (put v x y a) i j = if (i =? x) && (j =? y) then a else get v i j.
Proof. reflexivity. Qed.

Lemma inBounds_iff (v : Buffer2DView) (x y : Z) :
  inBounds v x y = true <-> 0 <= x < width v /\ 0 <= y < height v.
Proof.
  unfold inBounds. rewrite !andb_true_iff, !Z.leb_le, !Z.ltb_lt. lia.
Qed.

Lemma clamp_in_range (a lo hi : Z) : lo <= hi -> lo <= clamp a lo hi <= hi.
Proof. unfold clamp. lia. Qed.

Lemma clamp_id (a lo hi : Z) : lo <= a <= hi -> clamp a lo hi = a.
Proof. unfold clamp. lia. Qed.

(** ** Launches *)

Section Launch.

Variable K : kernel.
Variable guard : Z -> Z -> bool.
Variable val : dim3 -> Z -> Z -> T.
Hypothesis HK : writes_own_pixel K guard val.
Variable blockDim : dim3.

Let run (l : list (dim3 * dim3)) (o : Buffer2DView) : Buffer2DView :=
  fold_left (fun o bt => K (fst bt) blockDim (snd bt) o) l o.

Lemma run_shape (l : list (dim3 * dim3)) (o : Buffer2DView) :
  width (run l o) = width o /\ height (run l o) = height o.
Proof.
  revert o. induction l as [|[b t] l IH]; intro o; simpl.
  - split; reflexivity.
  - destruct (IH (K b blockDim t o)) as [Hw Hh].
    destruct (HK b blockDim t o) as (Hw' & Hh' & _).
    unfold run in *. simpl. split; congruence.
Qed.

Lemma run_untouched (l : list (dim3 * dim3)) (o : Buffer2DView) (i j : Z) :
  (forall bt, In bt l ->
     guard (thread_x blockDim bt) (thread_y blockDim bt) = true ->
     ~ (thread_x blockDim bt = i /\ thread_y blockDim bt = j)) ->
  get (run l o) i j = get o i j.
Proof.
  revert o. induction l as [|[b t] l IH]; intros o Hno; simpl.
  - reflexivity.
  - unfold run in *. simpl. rewrite IH.
    + destruct (HK b blockDim t o) as (_ & _ & Hg). rewrite Hg.
      destruct (guard _ _) eqn:Eg; simpl; [|reflexivity].
      destruct (i =? _) eqn:Ei; simpl; [|reflexivity].
      destruct (j =? _) eqn:Ej; simpl; [|reflexivity].
      apply Z.eqb_eq in Ei, Ej.
      exfalso. apply (Hno (b, t)); [left; reflexivity | exact Eg | split; symmetry; assumption].
    + intros bt Hin. apply Hno. right. exact Hin.
Qed.

Lemma run_written (l : list (dim3 * dim3)) (o : Buffer2DView) (i j : Z) (a : T) :
  guard i j = true ->
  (exists bt, In bt l /\ thread_x blockDim bt = i /\ thread_y blockDim bt = j) ->
  (forall bt, In bt l -> thread_x blockDim bt = i -> thread_y blockDim bt = j ->
              val (fst bt) i j = a) ->
  get (run l o) i j = a.
Proof.
  intros Hg. revert o. induction l as [|[b t] l IH]; intros o [bt (Hin & Hx & Hy)] Hval.
  - destruct Hin.
  - unfold run in *. simpl.
    destruct (existsb (fun bt => (thread_x blockDim bt =? i) && (thread_y blockDim bt =? j)) l)
      eqn:Ex.
    + apply existsb_exists in Ex. destruct Ex as (bt' & Hin' & Hc).
      apply andb_true_iff in Hc. rewrite !Z.eqb_eq in Hc.
      apply IH.
      * exists bt'. tauto.
      * intros bt0 H0. apply Hval. right. exact H0.
    + assert (Hnone : forall bt0, In bt0 l ->
                ~ (thread_x blockDim bt0 = i /\ thread_y blockDim bt0 = j)).
      { intros bt0 H0 [Hx0 Hy0].
        assert (Ht : existsb (fun bt => (thread_x blockDim bt =? i) && (thread_y blockDim bt =? j)) l
                     = true).
        { apply existsb_exists. exists bt0. split; [exact H0|].
          rewrite Hx0, Hy0, !Z.eqb_refl. reflexivity. }
        congruence. }
      destruct Hin as [Heq | Hin]; [| exfalso; apply (Hnone bt Hin); tauto].
      subst bt.
      fold (run l (K b blockDim t o)).
      rewrite run_untouched by (intros bt0 H0 _; apply Hnone; exact H0).
      destruct (HK b blockDim t o) as (_ & _ & Hget). rewrite Hget.
      rewrite Hx, Hy, Hg, !Z.eqb_refl. simpl.
      apply (Hval (b, t)); [left; reflexivity | exact Hx | exact Hy].
Qed.

End Launch.

Lemma In_indices (n z : Z) : In z (indices n) <-> 0 <= z < n.
Proof.
  unfold indices. rewrite in_map_iff. split.
  - intros (k & <- & Hk). apply in_seq in Hk. lia.
  - intros Hz. exists (Z.to_nat z). split; [lia|]. apply in_seq. lia.
Qed.

Lemma In_threads (gridDim blockDim : dim3) (b t : dim3) :
  In (b, t) (threads gridDim blockDim) <->
  (0 <= dim_x b < dim_x gridDim /\ 0 <= dim_y b < dim_y gridDim) /\
  (0 <= dim_x t < dim_x blockDim /\ 0 <= dim_y t < dim_y blockDim).
Proof.
  unfold threads. destruct b as [bx by_], t as [tx ty]. simpl. split.
  - intros H.
    apply in_flat_map in H. destruct H as (by' & Hby & H).
    apply in_flat_map in H. destruct H as (bx' & Hbx & H).
    apply in_flat_map in H. destruct H as (ty' & Hty & H).
    apply in_map_iff in H. destruct H as (tx' & Heq & Htx).
    inversion Heq; subst. rewrite In_indices in *. tauto.
  - intros [[Hbx Hby] [Htx Hty]].
    apply in_flat_map. exists by_. split; [apply In_indices; exact Hby|].
    apply in_flat_map. exists bx. split; [apply In_indices; exact Hbx|].
    apply in_flat_map. exists ty. split; [apply In_indices; exact Hty|].
    apply in_map_iff. exists tx. split; [reflexivity | apply In_indices; exact Htx].
Qed.

Lemma tile_covers (n i : Z) : 0 <= i < n -> 0 <= i / 32 < (n + 32 - 1) / 32.
Proof.
  intros Hi. split; [apply Z.div_pos; lia|].
  apply Z.div_lt_upper_bound; [lia|].
  pose proof (Z.mul_div_le (n + 32 - 1) 32 ltac:(lia)).
  pose proof (Z.mod_pos_bound (n + 32 - 1) 32 ltac:(lia)).
  pose proof (Z.div_mod (n + 32 - 1) 32 ltac:(lia)). lia.
Qed.

Lemma tile_unique (i b t : Z) : b * 32 + t = i -> 0 <= t < 32 -> b = i / 32.
Proof. intros <- Ht. apply Z.div_unique with t; lia. Qed.

Section LaunchOverImage.

Variable K : kernel.
Variable guard : Z -> Z -> bool.
Variable val : dim3 -> Z -> Z -> T.
Hypothesis HK : writes_own_pixel K guard val.
Variable img : Buffer2DView.

(** After a launch over the grid [InitDimFromBufferOver] derives from [img],
    a pixel of [img] that passes the kernel's guard holds the value its
    thread wrote. *)
Lemma launch_over_written (o : Buffer2DView) (x y : Z) :
  inBounds img x y = true -> guard x y = true ->
  get (launch K (snd (InitDimFromBufferOver img)) (fst (InitDimFromBufferOver img)) o) x y
  = val (block_of x y) x y.
Proof.
  intros Hin Hg. apply inBounds_iff in Hin. destruct Hin as [Hx Hy].
  unfold launch. simpl fst. simpl snd.
  apply (run_written K guard val HK); [exact Hg | |].
  - exists (block_of x y, mkDim3 (x mod 32) (y mod 32)). split; [|split].
    + apply In_threads. simpl.
      pose proof (tile_covers (width img) x Hx).
      pose proof (tile_covers (height img) y Hy).
      pose proof (Z.mod_pos_bound x 32 ltac:(lia)).
      pose proof (Z.mod_pos_bound y 32 ltac:(lia)). lia.
    + unfold thread_x. simpl. pose proof (Z.div_mod x 32 ltac:(lia)). lia.
    + unfold thread_y. simpl. pose proof (Z.div_mod y 32 ltac:(lia)). lia.
  - intros [b t] Hbt Hbx Hby. apply In_threads in Hbt. simpl in Hbt.
    unfold thread_x, thread_y in Hbx, Hby. simpl in Hbx, Hby. simpl fst.
    replace b with (block_of x y); [reflexivity|].
    destruct b as [bx by_]. unfold block_of. simpl in *.
    f_equal; symmetry; eapply tile_unique; try eassumption; lia.
Qed.

(** A launch leaves alone every element whose coordinates fail the guard,
    whatever the grid. *)
Lemma launch_unguarded (gridDim blockDim : dim3) (o : Buffer2DView) (x y : Z) :
  guard x y = false -> get (launch K gridDim blockDim o) x y = get o x y.
Proof.
  intros Hg. unfold launch.
  apply (run_untouched K guard val HK).
  intros bt _ Hgt [Hx Hy]. rewrite Hx, Hy in Hgt. congruence.
Qed.

Lemma launch_shape (gridDim blockDim : dim3) (o : Buffer2DView) :
  width (launch K gridDim blockDim o) = width o /\
  height (launch K gridDim blockDim o) = height o.
Proof. unfold launch. apply (run_shape K guard val HK). Qed.

End LaunchOverImage.

(** ** The kernels as pixel writers *)

Section Kernels.

Variable exp : T -> T.

Lemma Kernel_bilateral_writes (img_in : Buffer2DView) (gs gr : T) (dim : Z)
      (smem : dim3 -> SharedMemory) :
  writes_own_pixel (fun b => Kernel_bilateral exp img_in gs gr dim (smem b) b)
                   (inBounds img_in) (fun b _ _ => smem b 0).
Proof.
  intros b bd t o x y. subst x y.
  unfold Kernel_bilateral, thread_x, thread_y. cbn [fst snd]. cbv beta zeta.
  set (x := dim_x b * dim_x bd + dim_x t). set (y := dim_y b * dim_y bd + dim_y t).
  destruct (inBounds img_in x y); cbn [andb].
  - destruct (bilateral_sums exp img_in gs gr dim x y) as [s w].
    split; [reflexivity | split; [reflexivity |]].
    intros i j. rewrite !get_put.
    destruct ((i =? x) && (j =? y)); reflexivity.
  - split; [reflexivity | split; [reflexivity | intros i j; reflexivity]].
Qed.

Lemma Kernel_bilateralLimited_writes (img_in : Buffer2DView) (gs gr minval : T) (dim : Z) :
  writes_own_pixel (Kernel_bilateralLimited exp img_in gs gr minval dim)
                   (inBounds img_in)
                   (fun _ x y => quotient (bilateralLimited_sums exp img_in gs gr minval dim x y)).
Proof.
  intros b bd t o x y. subst x y.
  unfold Kernel_bilateralLimited, thread_x, thread_y. cbn [fst snd]. cbv beta zeta.
  set (x := dim_x b * dim_x bd + dim_x t). set (y := dim_y b * dim_y bd + dim_y t).
  destruct (inBounds img_in x y); cbn [andb].
  - unfold quotient.
    destruct (bilateralLimited_sums exp img_in gs gr minval dim x y) as [s w].
    split; [reflexivity | split; [reflexivity | intros i j; apply get_put]].
  - split; [reflexivity | split; [reflexivity | intros i j; reflexivity]].
Qed.

(** What the limited entry point leaves in the output view. *)
Lemma bilateralLimited_output img_in gs gr minval dim env d x y :
  dims_match img_in (img_out d) = true ->
  inBounds img_in x y = true ->
  get (img_out (snd (bilateralLimited exp img_in gs gr minval dim env d))) x y
  = quotient (bilateralLimited_sums exp img_in gs gr minval dim x y).
Proof.
  intros Hd Hin. unfold bilateralLimited. rewrite Hd. simpl negb. cbv iota.
  pose proof (launch_over_written _ _ _
                (Kernel_bilateralLimited_writes img_in gs gr minval dim)
                img_in (img_out d) x y Hin Hin) as H.
  simpl fst in H. simpl snd in H.
  destruct (InitDimFromBufferOver img_in) as [bd gd] eqn:E.
  unfold InitDimFromBufferOver in E. inversion E; subst bd gd. clear E.
  destruct (negb (sync_status env =? cudaSuccess)); simpl; exact H.
Qed.


End Kernels.

(** ** Comparisons of [T] *)

Lemma SFcompare_swap (a b : T) :
  SFcompare b a = option_map CompOpp (SFcompare a b).
Proof.
  destruct a as [sa|sa| |sa ma ea], b as [sb|sb| |sb mb eb]; simpl;
    try reflexivity; try (destruct sa; reflexivity); try (destruct sb; reflexivity);
    try (destruct sa, sb; reflexivity).
  destruct sa, sb; simpl; try reflexivity;
    rewrite (Z.compare_antisym ea eb); destruct (ea ?= eb); simpl; try reflexivity;
    change (PosDef.Pos.compare_cont Eq mb ma) with (Pos.compare_cont (CompOpp Eq) mb ma);
    rewrite <- (Pos.compare_cont_antisym ma mb Eq);
    change (PosDef.Pos.compare_cont Eq ma mb) with (Pos.compare_cont Eq ma mb);
    destruct (Pos.compare_cont Eq ma mb); reflexivity.
Qed.

(** [a < b] excludes [a >= b]. *)
Lemma Tlt_not_Tge (a b : T) : Tlt a b = true -> Tge a b = false.
Proof.
  unfold Tlt, Tge, SFltb, SFleb. rewrite (SFcompare_swap a b).
  destruct (SFcompare a b) as [[ | | ]|]; simpl; congruence.
Qed.

Lemma quotient_zero_zero : quotient (T0, T0) = NaN.
Proof. reflexivity. Qed.

Lemma fold_left_ext {A B : Type} (f g : A -> B -> A) (l : list B) (a : A) :
  (forall a b, In b l -> f a b = g a b) -> fold_left f l a = fold_left g l a.
Proof.
  revert a. induction l as [|b l IH]; intros a H; simpl; [reflexivity|].
  rewrite H by (left; reflexivity). apply IH. intros a' b' Hb'. apply H. right. exact Hb'.
Qed.

Section Limited.

Variable exp : T -> T.

(** Below the threshold the loops are skipped. *)
Lemma bilateralLimited_sums_below img_in gs gr minval dim x y :
  Tge (get img_in x y) minval = false ->
  bilateralLimited_sums exp img_in gs gr minval dim x y = (T0, T0).
Proof. intros H. unfold bilateralLimited_sums. rewrite H. reflexivity. Qed.

(** Replacing one sub-threshold sample by another sub-threshold value does
    not change what a thread above the threshold accumulates. *)
Lemma bilateralLimited_sums_replace img_in gs gr minval dim x y i j q' :
  Tge (get img_in x y) minval = true ->
  Tlt (get img_in i j) minval = true ->
  Tlt q' minval = true ->
  bilateralLimited_sums exp (put img_in i j q') gs gr minval dim x y
  = bilateralLimited_sums exp img_in gs gr minval dim x y.
Proof.
  intros Hp Hq Hq'. unfold bilateralLimited_sums.
  assert (Hc : get (put img_in i j q') x y = get img_in x y).
  { rewrite get_put. destruct ((x =? i) && (y =? j)) eqn:E; [|reflexivity].
    apply andb_true_iff in E. rewrite !Z.eqb_eq in E. destruct E; subst.
    apply Tlt_not_Tge in Hq. congruence. }
  rewrite Hc, Hp.
  apply fold_left_ext. intros acc r _.
  apply fold_left_ext. intros acc' c _.
  unfold bilateralLimited_step, getWithClampedRange. cbn [width height put].
  rewrite get_put.
  destruct ((clamp (x + c) 0 (width img_in - 1) =? i)
            && (clamp (y + r) 0 (height img_in - 1) =? j)) eqn:E; [|reflexivity].
  apply andb_true_iff in E. rewrite !Z.eqb_eq in E. destruct E as [-> ->].
  rewrite (Tlt_not_Tge _ _ Hq), (Tlt_not_Tge _ _ Hq'). reflexivity.
Qed.

End Limited.

(** ** Rounding to binary32 *)

Lemma digits2_pos_log2 (p : positive) :
  Zpos (digits2_pos p) = Z.log2 (Zpos p) + 1.
Proof.
  induction p as [p IH|p IH|]; simpl digits2_pos.
  - rewrite Pos2Z.inj_succ, IH. simpl Z.log2. destruct p; simpl; lia.
  - rewrite Pos2Z.inj_succ, IH. simpl Z.log2. destruct p; simpl; lia.
  - reflexivity.
Qed.

Lemma Zdigits2_log2 (m : Z) : 0 < m -> Zdigits2 m = Z.log2 m + 1.
Proof. destruct m; try lia. intros _. apply digits2_pos_log2. Qed.

Lemma iter_pos_nat {A : Type} (f : A -> A) (n : positive) (x : A) :
  iter_pos f n x = Nat.iter (Pos.to_nat n) f x.
Proof.
  revert x. induction n as [n IH|n IH|]; intro x; simpl iter_pos.
  - rewrite !IH, Pos2Nat.inj_xI.
    replace (S (2 * Pos.to_nat n)) with (Pos.to_nat n + (Pos.to_nat n + 1))%nat by lia.
    rewrite !Nat.iter_add. reflexivity.
  - rewrite !IH, Pos2Nat.inj_xO.
    replace (2 * Pos.to_nat n)%nat with (Pos.to_nat n + Pos.to_nat n)%nat by lia.
    rewrite Nat.iter_add. reflexivity.
  - reflexivity.
Qed.

Lemma shr_1_spec (mrs : shr_record) :
  0 <= shr_m mrs ->
  shr_m (shr_1 mrs) = shr_m mrs / 2 /\ shr_r (shr_1 mrs) = Z.odd (shr_m mrs).
Proof.
  destruct mrs as [m r s]. simpl. intros Hm.
  destruct m as [|p|p]; try lia.
  - split; reflexivity.
  - destruct p as [p|p|]; simpl; split; try reflexivity.
    + rewrite Pos2Z.inj_xI. apply Z.div_unique with 1; lia.
    + rewrite Pos2Z.inj_xO. apply Z.div_unique with 0; lia.
Qed.

Lemma shr_iter_spec (k : nat) (mrs : shr_record) :
  0 <= shr_m mrs ->
  shr_m (Nat.iter k shr_1 mrs) = shr_m mrs / 2 ^ Z.of_nat k /\
  (forall j, k = S j ->
     shr_r (Nat.iter k shr_1 mrs) = Z.testbit (shr_m mrs) (Z.of_nat j)).
Proof.
  intros Hm. induction k as [|k [IHm IHr]].
  - simpl. split; [rewrite Z.div_1_r; reflexivity | discriminate].
  - simpl Nat.iter.
    assert (H0 : 0 <= shr_m (Nat.iter k shr_1 mrs)).
    { rewrite IHm. apply Z.div_pos; lia. }
    destruct (shr_1_spec _ H0) as [H1 H2]. split.
    + rewrite H1, IHm, Z.div_div by lia.
      rewrite Nat2Z.inj_succ, Z.pow_succ_r by lia. f_equal. lia.
    + intros j Hj. injection Hj as <-. rewrite H2, IHm.
      rewrite Z.testbit_odd, Z.shiftr_div_pow2 by lia. reflexivity.
Qed.

(** [shr] on a non-negative mantissa: a floor division, and the round bit
    is the highest bit shifted out. *)
Lemma shr_spec (mrs : shr_record) (e n : Z) :
  0 <= shr_m mrs ->
  0 < n ->
  shr_m (fst (shr mrs e n)) = shr_m mrs / 2 ^ n /\
  shr_r (fst (shr mrs e n)) = Z.testbit (shr_m mrs) (n - 1) /\
  snd (shr mrs e n) = e + n.
Proof.
  intros Hm Hn. destruct n as [|p|p]; try lia. cbn [shr fst snd].
  rewrite iter_pos_nat.
  destruct (shr_iter_spec (Pos.to_nat p) mrs Hm) as [H1 H2].
  rewrite positive_nat_Z in H1. split; [exact H1|]. split; [|reflexivity].
  pose proof (positive_nat_Z p) as Hp.
  destruct (Pos.to_nat p) as [|j]; [lia|].
  rewrite (H2 j eq_refl). f_equal. lia.
Qed.

Lemma shr_nop (mrs : shr_record) (e n : Z) : n <= 0 -> shr mrs e n = (mrs, e).
Proof. destruct n; try lia; reflexivity. Qed.

Lemma shr_m_of_loc (m : Z) (l : location) : shr_m (shr_record_of_loc m l) = m.
Proof. destruct l as [|[ | | ]]; reflexivity. Qed.

Lemma round_nearest_even_bounds (m : Z) (l : location) :
  m <= round_nearest_even m l <= m + 1.
Proof.
  destruct l as [|[ | | ]]; simpl; try lia. destruct (Z.even m); lia.
Qed.

Lemma round_nearest_even_down (mrs : shr_record) :
  shr_r mrs = false ->
  round_nearest_even (shr_m mrs) (loc_of_shr_record mrs) = shr_m mrs.
Proof. destruct mrs as [m [|] [|]]; simpl; congruence. Qed.

Lemma shr_fexp_spec (m e : Z) (l : location) :
  0 <= m ->
  let s := fexp prec emax (Zdigits2 m + e) - e in
  shr_m (fst (shr_fexp prec emax m e l)) = shift_m m s /\
  snd (shr_fexp prec emax m e l) = shift_e e s /\
  (0 < s -> shr_r (fst (shr_fexp prec emax m e l)) = Z.testbit m (s - 1)) /\
  (s <= 0 -> fst (shr_fexp prec emax m e l) = shr_record_of_loc m l).
Proof.
  intros Hm s. unfold shr_fexp. fold s. unfold shift_m, shift_e.
  destruct (0 <? s) eqn:Es.
  - apply Z.ltb_lt in Es.
    destruct (shr_spec (shr_record_of_loc m l) e s) as (H1 & H2 & H3);
      [rewrite shr_m_of_loc; exact Hm | exact Es |].
    rewrite shr_m_of_loc in H1, H2.
    split; [exact H1|]. split; [exact H3|]. split; [intros _; exact H2 | lia].
  - apply Z.ltb_ge in Es. rewrite shr_nop by exact Es. simpl.
    split; [apply shr_m_of_loc|]. split; [reflexivity|]. split; [lia | reflexivity].
Qed.

(** What [binary_round_aux] computes on a non-negative mantissa, in terms
    of integer divisions. *)
Lemma binary_round_aux_spec (sx : bool) (m e : Z) (l : location) :
  0 <= m ->
  let s1 := fexp prec emax (Zdigits2 m + e) - e in
  let q := shift_m m s1 in
  let e1 := shift_e e s1 in
  exists m2,
    q <= m2 <= q + 1 /\
    (0 < s1 -> Z.testbit m (s1 - 1) = false -> m2 = q) /\
    (s1 <= 0 -> l = loc_Exact -> m2 = q) /\
    binary_round_aux prec emax sx m e l
    = round_result sx (shift_m m2 (fexp prec emax (Zdigits2 m2 + e1) - e1))
                      (shift_e e1 (fexp prec emax (Zdigits2 m2 + e1) - e1)).
Proof.
  intros Hm s1 q e1.
  destruct (shr_fexp_spec m e l Hm) as (H1 & H2 & H3 & H4).
  fold s1 in H1, H2, H3, H4. fold q in H1. fold e1 in H2.
  unfold binary_round_aux.
  destruct (shr_fexp prec emax m e l) as [mrs' e'] eqn:E1. simpl in H1, H2, H3, H4.
  subst e'.
  set (m2 := round_nearest_even (shr_m mrs') (loc_of_shr_record mrs')).
  exists m2.
  assert (Hb : q <= m2 <= q + 1).
  { unfold m2. rewrite <- H1. apply round_nearest_even_bounds. }
  assert (Hq : 0 <= q).
  { unfold q, shift_m. destruct (0 <? s1) eqn:E; [|lia].
    apply Z.ltb_lt in E. apply Z.div_pos; [lia | apply Z.pow_pos_nonneg; lia]. }
  split; [exact Hb|]. split; [|split].
  - intros Hs Hbit. unfold m2. rewrite <- H1. apply round_nearest_even_down.
    rewrite H3 by exact Hs. exact Hbit.
  - intros Hs Hl. unfold m2. rewrite H4 by exact Hs. subst l. simpl.
    unfold q, shift_m. destruct (0 <? s1) eqn:E; [apply Z.ltb_lt in E; lia | reflexivity].
  - destruct (shr_fexp_spec m2 e1 loc_Exact ltac:(lia)) as (G1 & G2 & _ & _).
    destruct (shr_fexp prec emax m2 e1 loc_Exact) as [mrs'' e''] eqn:E2.
    simpl in G1, G2. rewrite G1, G2. reflexivity.
Qed.

Lemma fexp_eq (x : Z) : fexp prec emax x = Z.max (x - 24) (-149).
Proof. reflexivity. Qed.

Lemma round_result_signed (sx : bool) (m e : Z) :
  0 <= m -> signed sx (round_result sx m e) = true.
Proof.
  intros Hm. destruct m as [|p|p]; try lia; simpl; [reflexivity|].
  destruct (e <=? _); simpl; apply Bool.eqb_reflx.
Qed.

Lemma shift_m_nonneg (m s : Z) : 0 <= m -> 0 <= shift_m m s.
Proof.
  intros Hm. unfold shift_m. destruct (0 <? s) eqn:E; [|exact Hm].
  apply Z.ltb_lt in E. apply Z.div_pos; [lia | apply Z.pow_pos_nonneg; lia].
Qed.

Lemma binary_round_aux_signed (sx : bool) (m e : Z) (l : location) :
  0 <= m -> signed sx (binary_round_aux prec emax sx m e l) = true.
Proof.
  intros Hm. destruct (binary_round_aux_spec sx m e l Hm) as (m2 & Hb & _ & _ & ->).
  apply round_result_signed. apply shift_m_nonneg.
  pose proof (shift_m_nonneg m (fexp prec emax (Zdigits2 m + e) - e) Hm). lia.
Qed.

(** Shifting out fewer bits than the mantissa has keeps the magnitude. *)
Lemma shift_mag (m e s : Z) :
  0 < m -> s < Zdigits2 m ->
  0 < shift_m m s /\ Zdigits2 (shift_m m s) + shift_e e s = Zdigits2 m + e.
Proof.
  intros Hm Hs. rewrite (Zdigits2_log2 m Hm) in *.
  unfold shift_m, shift_e. destruct (0 <? s) eqn:E.
  - apply Z.ltb_lt in E.
    assert (H2 : 2 ^ s <= m).
    { apply Z.log2_le_pow2; lia. }
    assert (Hq : 0 < m / 2 ^ s).
    { apply Z.div_str_pos. split; [apply Z.pow_pos_nonneg; lia | exact H2]. }
    split; [exact Hq|].
    rewrite (Zdigits2_log2 _ Hq).
    rewrite <- Z.shiftr_div_pow2 by lia. rewrite Z.log2_shiftr by lia. lia.
  - split; [exact Hm|]. rewrite (Zdigits2_log2 m Hm). reflexivity.
Qed.

Lemma Zdigits2_mono (a b : Z) : 0 < a -> a <= b -> Zdigits2 a <= Zdigits2 b.
Proof.
  intros Ha Hab. rewrite !Zdigits2_log2 by lia.
  pose proof (Z.log2_le_mono a b Hab). lia.
Qed.

(** Rounding keeps a value that is at least [2^k] at least [2^k], as long
    as [2^k] is above the smallest subnormal. *)
Lemma binary_round_aux_ge (m e : Z) (l : location) (k : Z) :
  0 < m -> -149 <= k -> k + 1 <= Zdigits2 m + e ->
  ge_pow2 k (binary_round_aux prec emax false m e l) = true.
Proof.
  intros Hm Hk Hmag.
  destruct (binary_round_aux_spec false m e l ltac:(lia)) as (m2 & Hb & _ & _ & ->).
  set (s1 := fexp prec emax (Zdigits2 m + e) - e) in *.
  destruct (shift_mag m e s1 Hm) as [Hq Hqm].
  { unfold s1. rewrite fexp_eq. pose proof (Zdigits2_log2 m Hm).
    pose proof (Z.log2_nonneg m). lia. }
  set (q := shift_m m s1) in *. set (e1 := shift_e e s1) in *.
  assert (Hm2 : 0 < m2) by lia.
  assert (Hmag2 : k + 1 <= Zdigits2 m2 + e1).
  { pose proof (Zdigits2_mono q m2 Hq ltac:(lia)). lia. }
  set (s2 := fexp prec emax (Zdigits2 m2 + e1) - e1) in *.
  destruct (shift_mag m2 e1 s2 Hm2) as [H3 H3m].
  { unfold s2. rewrite fexp_eq. lia. }
  destruct (shift_m m2 s2) as [|p|p] eqn:E3; try lia. simpl.
  destruct (_ <=? _); simpl; [|reflexivity].
  unfold mag. apply Z.leb_le. lia.
Qed.

Lemma pow2_log2 (b : Z) : 0 < 2 ^ b -> 2 ^ b = 2 ^ Z.log2 (2 ^ b).
Proof.
  intros H. destruct (Z.lt_ge_cases b 0) as [Hb|Hb].
  - rewrite Z.pow_neg_r in H by exact Hb. lia.
  - rewrite Z.log2_pow2 by exact Hb. reflexivity.
Qed.

Lemma le_pow2_int_shift (k m e s : Z) :
  0 <= m -> le_pow2_int k m e -> le_pow2_int k (shift_m m s) (shift_e e s).
Proof.
  intros Hm H. destruct (Z.eq_dec m 0) as [->|Hne].
  { left. unfold shift_m. destruct (0 <? s) eqn:E; [|reflexivity].
    apply Z.ltb_lt in E. apply Z.div_0_l. apply Z.pow_nonzero; lia. }
  destruct H as [H|[Hpos H]]; [contradiction|].
  destruct (Z.lt_ge_cases s (Zdigits2 m)) as [Hs|Hs].
  - destruct (shift_mag m e s Hpos Hs) as [Hq Hqm]. right. split; [exact Hq|].
    destruct H as [H|[H Hp]]; [left; lia|]. right. split; [lia|].
    unfold shift_m in *. destruct (0 <? s) eqn:E; [|exact Hp].
    apply Z.ltb_lt in E. rewrite (Zdigits2_log2 m Hpos) in Hs.
    rewrite <- Z.shiftr_div_pow2 by lia.
    rewrite Z.log2_shiftr by lia.
    rewrite Z.max_r by lia.
    rewrite Hp at 1. rewrite Z.shiftr_div_pow2 by lia.
    rewrite <- Z.pow_sub_r by lia. reflexivity.
  - left. unfold shift_m. rewrite (Zdigits2_log2 m Hpos) in Hs.
    assert (E : (0 <? s) = true) by (apply Z.ltb_lt; pose proof (Z.log2_nonneg m); lia).
    rewrite E. apply Z.div_small. split; [lia|].
    apply Z.log2_lt_pow2; lia.
Qed.

Lemma le_pow2_int_succ (k q e : Z) :
  0 < q -> Zdigits2 q + e <= k -> le_pow2_int k (q + 1) e.
Proof.
  intros Hq H. right. split; [lia|].
  rewrite (Zdigits2_log2 q Hq) in H. rewrite (Zdigits2_log2 (q + 1)) by lia.
  pose proof (Z.log2_succ_le q) as Hle. unfold Z.succ in Hle.
  pose proof (Z.log2_le_mono q (q + 1) ltac:(lia)) as Hge.
  destruct (Z.eq_dec (Z.log2 (q + 1)) (Z.log2 q + 1)) as [E|E].
  - destruct (Z.log2_eq_succ_is_pow2 q) as [b Hb]; [unfold Z.succ; exact E|].
    unfold Z.succ in Hb.
    destruct (Z.le_gt_cases (Z.log2 (q + 1) + 1 + e) k) as [Hk|Hk]; [left; exact Hk|].
    right. split; [lia|]. rewrite Hb. apply pow2_log2. lia.
  - left. lia.
Qed.

Lemma le_pow2_of_int (k m e : Z) :
  0 <= m -> k <= 104 -> le_pow2_int k m e -> le_pow2 k (round_result false m e) = true.
Proof.
  intros Hm Hk H. destruct m as [|p|p]; try lia; [reflexivity|].
  destruct H as [H|[_ H]]; [discriminate|].
  assert (Hd : 1 <= Zdigits2 (Z.pos p)).
  { rewrite Zdigits2_log2 by lia. pose proof (Z.log2_nonneg (Z.pos p)). lia. }
  unfold round_result.
  replace (e <=? emax - prec) with true by (symmetry; apply Z.leb_le; unfold emax, prec; lia).
  unfold le_pow2, mag. apply orb_true_iff.
  destruct H as [H|[H Hp]]; [left; apply Z.leb_le; exact H|].
  right. apply andb_true_iff. split; [apply Z.eqb_eq; exact H | apply Z.eqb_eq; exact Hp].
Qed.

(** Rounding an exact value that is at most [2^k] gives at most [2^k]. *)
Lemma binary_round_aux_le (m e k : Z) :
  0 < m -> -149 <= k <= 104 -> le_pow2_int k m e ->
  le_pow2 k (binary_round_aux prec emax false m e loc_Exact) = true.
Proof.
  intros Hm Hk H.
  destruct (binary_round_aux_spec false m e loc_Exact ltac:(lia))
    as (m2 & Hb & Hdown & Hexact & ->).
  set (s1 := fexp prec emax (Zdigits2 m + e) - e) in *.
  pose proof (le_pow2_int_shift k m e s1 ltac:(lia) H) as Hq.
  pose proof (shift_m_nonneg m s1 ltac:(lia)) as Hq0.
  set (q := shift_m m s1) in *. set (e1 := shift_e e s1) in *.
  assert (H2 : le_pow2_int k m2 e1).
  { destruct (Z.eq_dec m2 q) as [->|Hne]; [exact Hq|].
    assert (Hm2 : m2 = q + 1) by lia.
    destruct (Z.lt_ge_cases 0 s1) as [Hs|Hs]; [|exfalso; apply Hne; apply Hexact; [exact Hs | reflexivity]].
    assert (He1 : e1 = fexp prec emax (Zdigits2 m + e)).
    { unfold e1, shift_e, s1. replace (0 <? _) with true by (symmetry; apply Z.ltb_lt; exact Hs). lia. }
    destruct H as [H|[_ H]]; [lia|].
    destruct Hq as [Hq|[Hqpos Hq]].
    - (* everything was shifted out and the round bit rounds up to 1 *)
      rewrite Hm2, Hq. right. split; [lia|]. simpl Zdigits2.
      rewrite He1, fexp_eq.
      destruct H as [H|[H _]].
      + destruct (Z.le_gt_cases (1 + Z.max (Zdigits2 m + e - 24) (-149)) k); [left; assumption|].
        right. split; [lia | reflexivity].
      + destruct (Z.le_gt_cases (1 + Z.max (Zdigits2 m + e - 24) (-149)) k); [left; assumption|].
        right. split; [lia | reflexivity].
    - destruct Hq as [Hq|[Hq Hp]].
      + rewrite Hm2. apply le_pow2_int_succ; assumption.
      + exfalso. apply Hne. apply Hdown; [exact Hs|].
        (* the input is a power of two: the round bit is clear *)
        destruct (Z.lt_ge_cases s1 (Zdigits2 m)) as [Hlt|Hge].
        * destruct (shift_mag m e s1 Hm Hlt) as [_ Hmag]. fold q in Hmag. fold e1 in Hmag.
          destruct H as [H|[_ Hpm]]; [lia|].
          rewrite Hpm. rewrite Z.pow2_bits_eqb by apply Z.log2_nonneg.
          rewrite (Zdigits2_log2 m Hm) in Hlt. apply Z.eqb_neq. lia.
        * exfalso. unfold q, shift_m in Hqpos.
          replace (0 <? s1) with true in Hqpos by (symmetry; apply Z.ltb_lt; exact Hs).
          rewrite (Zdigits2_log2 m Hm) in Hge.
          rewrite Z.div_small in Hqpos; [lia|]. split; [lia|].
          apply Z.log2_lt_pow2; lia. }
  apply le_pow2_of_int; [apply shift_m_nonneg; lia | lia |].
  apply le_pow2_int_shift; [lia | exact H2].
Qed.

Lemma shl_align_spec (m : positive) (e e' : Z) :
  Zpos (fst (shl_align m e e')) = Zpos m * 2 ^ (e - Z.min e e') /\
  snd (shl_align m e e') = Z.min e e'.
Proof.
  unfold shl_align. destruct (e' - e) as [|d|d] eqn:E; simpl fst; simpl snd.
  - rewrite Z.min_l by lia. rewrite Z.sub_diag. simpl. lia.
  - rewrite Z.min_l by lia. rewrite Z.sub_diag. simpl. lia.
  - rewrite Z.min_r by lia. split; [|reflexivity].
    replace (e - e') with (Zpos d) by lia.
    change (Pos.iter xO m d) with (shift_pos d m).
    rewrite shift_pos_correct, Zpower_pos_nat, Zpower_nat_Z, positive_nat_Z. lia.
Qed.

Lemma Zdigits2_shl (m j : Z) : 0 < m -> 0 <= j -> Zdigits2 (m * 2 ^ j) = Zdigits2 m + j.
Proof.
  intros Hm Hj.
  assert (0 < m * 2 ^ j) by (apply Z.mul_pos_pos; [lia | apply Z.pow_pos_nonneg; lia]).
  rewrite !Zdigits2_log2 by lia. rewrite Z.log2_mul_pow2 by lia. lia.
Qed.

Lemma le_pow2_int_shl (k m e j : Z) :
  0 < m -> 0 <= j -> le_pow2_int k m e -> le_pow2_int k (m * 2 ^ j) (e - j).
Proof.
  intros Hm Hj [H|[_ H]]; [lia|].
  assert (0 < m * 2 ^ j) by (apply Z.mul_pos_pos; [lia | apply Z.pow_pos_nonneg; lia]).
  right. split; [assumption|]. rewrite Zdigits2_shl by lia.
  destruct H as [H|[H Hp]]; [left; lia|]. right. split; [lia|].
  rewrite Z.log2_mul_pow2 by lia. rewrite Hp at 1.
  rewrite <- Z.pow_add_r by (try apply Z.log2_nonneg; lia). f_equal. lia.
Qed.

Lemma binary_round_signed (sx : bool) (m : positive) (e : Z) :
  signed sx (binary_round prec emax sx m e) = true.
Proof.
  unfold binary_round. destruct (shl_align _ _ _) as [mz ez].
  apply binary_round_aux_signed. lia.
Qed.

Lemma binary_round_ge (m : positive) (e k : Z) :
  -149 <= k -> k + 1 <= mag m e ->
  ge_pow2 k (binary_round prec emax false m e) = true.
Proof.
  intros Hk Hm. unfold binary_round.
  destruct (shl_align_spec m e (fexp prec emax (Z.pos (digits2_pos m) + e))) as [H1 H2].
  destruct (shl_align _ _ _) as [mz ez]. cbn [fst snd] in H1, H2.
  apply binary_round_aux_ge; [lia | exact Hk |].
  rewrite H1, Zdigits2_shl by lia. unfold mag in Hm. lia.
Qed.

Lemma binary_round_le (m : positive) (e k : Z) :
  -149 <= k <= 104 -> le_pow2_int k (Zpos m) e ->
  le_pow2 k (binary_round prec emax false m e) = true.
Proof.
  intros Hk Hm. unfold binary_round.
  destruct (shl_align_spec m e (fexp prec emax (Z.pos (digits2_pos m) + e))) as [H1 H2].
  destruct (shl_align _ _ _) as [mz ez]. cbn [fst snd] in H1, H2.
  apply binary_round_aux_le; [lia | exact Hk |].
  set (j := e - Z.min e (fexp prec emax (Z.pos (digits2_pos m) + e))) in H1.
  rewrite H1. replace ez with (e - j) by (unfold j; lia).
  apply le_pow2_int_shl; [lia | unfold j; lia | exact Hm].
Qed.

Lemma le_pow2_int_value (k m e z : Z) :
  0 < m -> le_pow2_int k m e -> z <= e -> z <= k -> m * 2 ^ (e - z) <= 2 ^ (k - z).
Proof.
  intros Hm [H|[_ H]] He Hk; [lia|].
  rewrite (Zdigits2_log2 m Hm) in H.
  pose proof (Z.log2_nonneg m) as Hl.
  pose proof (Z.log2_spec m Hm) as [_ Hup]. unfold Z.succ in Hup.
  assert (Hp : 0 < 2 ^ (e - z)) by (apply Z.pow_pos_nonneg; lia).
  destruct H as [H|[H Hpw]].
  - apply Z.le_trans with (2 ^ (Z.log2 m + 1) * 2 ^ (e - z)).
    + apply Z.mul_le_mono_nonneg_r; lia.
    + rewrite <- Z.pow_add_r by lia. apply Z.pow_le_mono_r; lia.
  - rewrite Hpw. rewrite <- Z.pow_add_r by lia.
    apply Z.pow_le_mono_r; lia.
Qed.

Lemma le_pow2_to_int (k : Z) (m : positive) (e : Z) :
  le_pow2 k (S754_finite false m e) = true -> le_pow2_int k (Zpos m) e.
Proof.
  unfold le_pow2, mag. intros H. right. split; [lia|].
  apply orb_true_iff in H. destruct H as [H|H].
  - left. apply Z.leb_le. exact H.
  - right. apply andb_true_iff in H. rewrite !Z.eqb_eq in H. exact H.
Qed.

Lemma le_pow2_mono (k k' : Z) (a : T) :
  k <= k' -> le_pow2 k a = true -> le_pow2 k' a = true.
Proof.
  intros Hk. destruct a as [s|s| |[|] m e]; simpl; try congruence.
  intros H. apply orb_true_iff in H. apply orb_true_iff.
  destruct H as [H|H].
  - left. apply Z.leb_le in H. apply Z.leb_le. lia.
  - apply andb_true_iff in H. destruct H as [H1 H2]. apply Z.eqb_eq in H1.
    destruct (Z.eq_dec k k') as [->|Hne].
    + right. apply andb_true_iff. split; [apply Z.eqb_eq; exact H1 | exact H2].
    + left. apply Z.leb_le. lia.
Qed.

Lemma le_pow2_signed (k : Z) (a : T) : le_pow2 k a = true -> signed false a = true.
Proof. destruct a as [s|s| |[|] m e]; simpl; congruence. Qed.

Lemma le_pow2_finite (k : Z) (a : T) : le_pow2 k a = true -> is_finite a = true.
Proof. destruct a as [s|s| |[|] m e]; simpl; congruence. Qed.

(** The sum of two positive finite values is the rounding of the exact sum
    of the aligned mantissas. *)
Lemma Tadd_finite (m1 : positive) (e1 : Z) (m2 : positive) (e2 : Z) :
  exists M : positive,
    Zpos M = Zpos m1 * 2 ^ (e1 - Z.min e1 e2) + Zpos m2 * 2 ^ (e2 - Z.min e1 e2) /\
    Tadd (S754_finite false m1 e1) (S754_finite false m2 e2)
    = binary_round prec emax false M (Z.min e1 e2).
Proof.
  destruct (shl_align_spec m1 e1 (Z.min e1 e2)) as [H1 _].
  destruct (shl_align_spec m2 e2 (Z.min e1 e2)) as [H2 _].
  rewrite (Z.min_r e1 (Z.min e1 e2)) in H1 by lia.
  rewrite (Z.min_r e2 (Z.min e1 e2)) in H2 by lia.
  exists (fst (shl_align m1 e1 (Z.min e1 e2)) + fst (shl_align m2 e2 (Z.min e1 e2)))%positive.
  split; [rewrite Pos2Z.inj_add, H1, H2; reflexivity | reflexivity].
Qed.

Lemma Tadd_signed (a b : T) :
  signed false a = true -> signed false b = true -> signed false (Tadd a b) = true.
Proof.
  destruct a as [sa|[|]| |[|] m1 e1], b as [sb|[|]| |[|] m2 e2]; simpl;
    try congruence; try (destruct sa; reflexivity); try (destruct sa, sb; reflexivity).
  intros _ _. change (signed false (Tadd (S754_finite false m1 e1) (S754_finite false m2 e2)) = true).
  destruct (Tadd_finite m1 e1 m2 e2) as (M & _ & ->). apply binary_round_signed.
Qed.

Lemma Tadd_ge_l (k : Z) (a b : T) :
  -149 <= k -> ge_pow2 k a = true -> signed false b = true -> ge_pow2 k (Tadd a b) = true.
Proof.
  intros Hk.
  destruct a as [sa|[|]| |[|] m1 e1], b as [sb|[|]| |[|] m2 e2]; simpl;
    try congruence.
  intros Ha _. change (ge_pow2 k (Tadd (S754_finite false m1 e1) (S754_finite false m2 e2)) = true).
  destruct (Tadd_finite m1 e1 m2 e2) as (M & HM & ->).
  apply binary_round_ge; [exact Hk|]. apply Z.leb_le in Ha. unfold mag in *.
  assert (Hj : 0 <= e1 - Z.min e1 e2) by lia.
  pose proof (Zdigits2_shl (Zpos m1) _ ltac:(lia) Hj) as Hd.
  assert (H0 : 0 < Z.pos m1 * 2 ^ (e1 - Z.min e1 e2)).
  { apply Z.mul_pos_pos; [lia | apply Z.pow_pos_nonneg; lia]. }
  assert (H2 : 0 <= Z.pos m2 * 2 ^ (e2 - Z.min e1 e2)).
  { apply Z.mul_nonneg_nonneg; [lia | apply Z.pow_nonneg; lia]. }
  pose proof (Zdigits2_mono _ (Zpos M) H0 ltac:(lia)). lia.
Qed.

Lemma Tadd_ge_r (k : Z) (a b : T) :
  -149 <= k -> signed false a = true -> ge_pow2 k b = true -> ge_pow2 k (Tadd a b) = true.
Proof.
  intros Hk.
  destruct a as [sa|[|]| |[|] m1 e1], b as [sb|[|]| |[|] m2 e2]; simpl;
    try congruence.
  intros _ Hb. change (ge_pow2 k (Tadd (S754_finite false m1 e1) (S754_finite false m2 e2)) = true).
  destruct (Tadd_finite m1 e1 m2 e2) as (M & HM & ->).
  apply binary_round_ge; [exact Hk|]. apply Z.leb_le in Hb. unfold mag in *.
  assert (Hj : 0 <= e2 - Z.min e1 e2) by lia.
  pose proof (Zdigits2_shl (Zpos m2) _ ltac:(lia) Hj) as Hd.
  assert (H0 : 0 < Z.pos m2 * 2 ^ (e2 - Z.min e1 e2)).
  { apply Z.mul_pos_pos; [lia | apply Z.pow_pos_nonneg; lia]. }
  assert (H2 : 0 <= Z.pos m1 * 2 ^ (e1 - Z.min e1 e2)).
  { apply Z.mul_nonneg_nonneg; [lia | apply Z.pow_nonneg; lia]. }
  pose proof (Zdigits2_mono _ (Zpos M) H0 ltac:(lia)). lia.
Qed.

(** A value in [[2^25, 2^25 + 1]] rounds to [2^25]. *)
Lemma binary_round_saturated (M : positive) (ez : Z) :
  ez <= 0 ->
  2 ^ (25 - ez) <= Zpos M <= 2 ^ (25 - ez) + 2 ^ (- ez) ->
  binary_round prec emax false M ez = S754_finite false 8388608 2.
Proof.
  intros Hez [Hlo Hhi].
  set (P := 2 ^ (- ez)) in *.
  assert (HP : 0 < P) by (apply Z.pow_pos_nonneg; lia).
  assert (E25 : 2 ^ (25 - ez) = 33554432 * P).
  { replace (25 - ez) with (25 + - ez) by lia. rewrite Z.pow_add_r by lia. reflexivity. }
  assert (E26 : 2 ^ (Z.succ (25 - ez)) = 67108864 * P).
  { replace (Z.succ (25 - ez)) with (26 + - ez) by lia. rewrite Z.pow_add_r by lia. reflexivity. }
  assert (E2 : 2 ^ (2 - ez) = 4 * P).
  { replace (2 - ez) with (2 + - ez) by lia. rewrite Z.pow_add_r by lia. reflexivity. }
  assert (E1 : 2 ^ (2 - ez - 1) = 2 * P).
  { replace (2 - ez - 1) with (1 + - ez) by lia. rewrite Z.pow_add_r by lia. reflexivity. }
  assert (Hlog : Z.log2 (Zpos M) = 25 - ez).
  { apply Z.log2_unique; [lia|]. rewrite E26. lia. }
  assert (Hd : Zdigits2 (Zpos M) = 26 - ez) by (rewrite Zdigits2_log2; lia).
  unfold binary_round.
  destruct (shl_align_spec M ez (fexp prec emax (Z.pos (digits2_pos M) + ez))) as [H1 H2].
  destruct (shl_align _ _ _) as [mz ez']. cbn [fst snd] in H1, H2.
  change (Z.pos (digits2_pos M)) with (Zdigits2 (Zpos M)) in H1, H2.
  rewrite Hd, fexp_eq in H1, H2.
  rewrite Z.min_l in H1, H2 by lia. rewrite Z.sub_diag, Z.mul_1_r in H1.
  subst ez'. rewrite H1.
  destruct (binary_round_aux_spec false (Zpos M) ez loc_Exact ltac:(lia))
    as (m2 & Hb & Hdown & _ & ->).
  set (s1 := fexp prec emax (Zdigits2 (Z.pos M) + ez) - ez) in *.
  assert (Hs1 : s1 = 2 - ez) by (unfold s1; rewrite Hd, fexp_eq; lia).
  assert (He1 : shift_e ez s1 = 2).
  { unfold shift_e. replace (0 <? s1) with true by (symmetry; apply Z.ltb_lt; lia). lia. }
  assert (Hq : shift_m (Zpos M) s1 = 8388608).
  { unfold shift_m. replace (0 <? s1) with true by (symmetry; apply Z.ltb_lt; lia).
    rewrite Hs1, E2. symmetry.
    apply Z.div_unique with (Zpos M - 8388608 * (4 * P)); lia. }
  assert (Hm2 : m2 = 8388608).
  { rewrite <- Hq. apply Hdown; [lia|]. apply Z.testbit_false; [lia|].
    rewrite Hs1, E1.
    replace (Zpos M / (2 * P)) with 16777216; [reflexivity|].
    apply Z.div_unique with (Zpos M - 16777216 * (2 * P)); lia. }
  rewrite He1, Hm2. reflexivity.
Qed.

(** Adding a weight in [[0, 1]] to a sum in [[0, 2^25]] stays in [[0, 2^25]]. *)
Lemma Tadd_le25 (a w : T) :
  le_pow2 25 a = true -> le_pow2 0 w = true -> le_pow2 25 (Tadd a w) = true.
Proof.
  intros Ha Hw.
  destruct a as [sa|sa| |[|] m1 e1]; try discriminate;
    destruct w as [sw|sw| |[|] m2 e2]; try discriminate.
  - destruct sa, sw; reflexivity.
  - apply (le_pow2_mono 0 25); [lia | exact Hw].
  - exact Ha.
  - destruct (Tadd_finite m1 e1 m2 e2) as (M & HM & ->).
    apply le_pow2_to_int in Ha, Hw.
    set (ez := Z.min e1 e2) in *.
    assert (He2 : e2 <= 0).
    { destruct Hw as [Hw|[_ Hw]]; [lia|].
      rewrite Zdigits2_log2 in Hw by lia. pose proof (Z.log2_nonneg (Zpos m2)). lia. }
    pose proof (le_pow2_int_value 25 (Zpos m1) e1 ez ltac:(lia) Ha ltac:(lia) ltac:(lia)) as V1.
    pose proof (le_pow2_int_value 0 (Zpos m2) e2 ez ltac:(lia) Hw ltac:(lia) ltac:(lia)) as V2.
    replace (0 - ez) with (- ez) in V2 by lia.
    destruct (Z.le_gt_cases (Zdigits2 (Zpos M) + ez) 25) as [Hs|Hs].
    + apply binary_round_le; [lia|]. right. split; [lia|]. left. exact Hs.
    + rewrite binary_round_saturated; [reflexivity | lia |].
      split; [|lia]. apply Z.log2_le_pow2; [lia|].
      rewrite Zdigits2_log2 in Hs by lia. lia.
Qed.

Lemma signed_not_nan (s : bool) (a : T) : signed s a = true -> is_nan a = false.
Proof. destruct a; simpl; congruence. Qed.

Lemma le_pow2_int_mul (m1 e1 m2 e2 : Z) :
  0 < m1 -> 0 < m2 -> le_pow2_int 0 m1 e1 -> le_pow2_int 0 m2 e2 ->
  le_pow2_int 0 (m1 * m2) (e1 + e2).
Proof.
  intros H1 H2 [Ha|[_ Ha]] [Hb|[_ Hb]]; try lia.
  assert (H12 : 0 < m1 * m2) by (apply Z.mul_pos_pos; assumption).
  right. split; [exact H12|].
  rewrite Zdigits2_log2 in * by assumption.
  pose proof (Z.log2_nonneg m1). pose proof (Z.log2_nonneg m2).
  destruct Ha as [Ha|[Ha Hpa]], Hb as [Hb|[Hb Hpb]].
  - left. pose proof (Z.log2_mul_above m1 m2 ltac:(lia) ltac:(lia)). lia.
  - left. rewrite Hpb at 1. rewrite Z.log2_mul_pow2 by lia. lia.
  - left. rewrite Z.mul_comm. rewrite Hpa at 1. rewrite Z.log2_mul_pow2 by lia. lia.
  - assert (E : m1 * m2 = 2 ^ (Z.log2 m1 + Z.log2 m2)).
    { rewrite Z.pow_add_r by lia. congruence. }
    right. rewrite E. rewrite Z.log2_pow2 by lia. split; [lia | reflexivity].
Qed.

(** The product of two values of [[0, 1]] is in [[0, 1]]. *)
Lemma Tmul_le_one (a b : T) :
  le_pow2 0 a = true -> le_pow2 0 b = true -> le_pow2 0 (Tmul a b) = true.
Proof.
  intros Ha Hb.
  destruct a as [sa|sa| |[|] m1 e1]; try discriminate;
    destruct b as [sb|sb| |[|] m2 e2]; try discriminate; try reflexivity.
  apply le_pow2_to_int in Ha, Hb.
  unfold Tmul, SFmul. cbn [xorb].
  apply binary_round_aux_le; [lia | lia |].
  rewrite Pos2Z.inj_mul. apply le_pow2_int_mul; try lia; assumption.
Qed.

Lemma Tmul_signed (a b : T) :
  signed false a = true -> signed false b = true ->
  is_finite a = true -> is_finite b = true ->
  signed false (Tmul a b) = true.
Proof.
  destruct a as [sa|sa| |[|] m1 e1]; try discriminate;
    destruct b as [sb|sb| |[|] m2 e2]; try discriminate; try reflexivity.
  intros _ _ _ _. unfold Tmul, SFmul. cbn [xorb].
  apply binary_round_aux_signed. lia.
Qed.

Lemma Tmul_self_signed (a : T) : is_nan a = false -> signed false (Tmul a a) = true.
Proof.
  destruct a as [s|s| |s m e]; try discriminate; intros _.
  - reflexivity.
  - simpl. destruct s; reflexivity.
  - unfold Tmul, SFmul. replace (xorb s s) with false by (destruct s; reflexivity).
    apply binary_round_aux_signed. lia.
Qed.

Lemma Topp_signed (s : bool) (a : T) : signed s a = true -> signed (negb s) (Topp a) = true.
Proof.
  destruct a as [sa|sa| |sa m e]; simpl; try congruence; destruct s, sa; simpl; congruence.
Qed.

Lemma SFdiv_core_nonneg (m1 e1 m2 e2 : Z) :
  0 < m1 -> 0 < m2 -> 0 <= fst (fst (SFdiv_core_binary prec emax m1 e1 m2 e2)).
Proof.
  intros H1 H2. unfold SFdiv_core_binary.
  set (s := _ - _ - Z.min _ _).
  set (m' := match s with Z.pos _ => Z.shiftl m1 s | 0 => m1 | Z.neg _ => 0 end).
  assert (Hm' : 0 <= m').
  { unfold m'. destruct s; try lia. apply Z.shiftl_nonneg. lia. }
  destruct (Z.div_eucl m' m2) as [q r] eqn:E. simpl.
  assert (Hq : q = m' / m2) by (unfold Z.div; rewrite E; reflexivity).
  rewrite Hq. apply Z.div_pos; lia.
Qed.

Lemma Tdiv_signed (sa : bool) (a : T) (sb : bool) (mb : positive) (eb : Z) :
  signed sa a = true -> signed (xorb sa sb) (Tdiv a (S754_finite sb mb eb)) = true.
Proof.
  destruct a as [s|s| |s m e]; simpl; try discriminate.
  - reflexivity.
  - intros H. apply Bool.eqb_prop in H. subst s. apply Bool.eqb_reflx.
  - intros H. apply Bool.eqb_prop in H. subst s.
    pose proof (SFdiv_core_nonneg (Zpos m) e (Zpos mb) eb ltac:(lia) ltac:(lia)) as Hq.
    unfold Tdiv, SFdiv.
    destruct (SFdiv_core_binary prec emax (Z.pos m) e (Z.pos mb) eb) as [[mz ez] lz].
    simpl in Hq. apply binary_round_aux_signed. exact Hq.
Qed.

Lemma Tsub_not_nan (p q : T) :
  is_finite p = true -> is_nan q = false -> is_nan (Tsub p q) = false.
Proof.
  destruct p as [sp|sp| |sp mp ep]; try discriminate;
    destruct q as [sq|sq| |sq mq eq]; try discriminate; intros _ _;
    try reflexivity; try (destruct sp, sq; reflexivity).
  unfold Tsub, SFsub.
  set (z := _ - _). set (ez := Z.min ep eq).
  destruct z as [|z|z]; simpl; [reflexivity| |];
    eapply signed_not_nan; apply binary_round_signed.
Qed.

Lemma Tsub_self (p : T) : is_finite p = true -> exists s, Tsub p p = S754_zero s.
Proof.
  destruct p as [s|s| |s m e]; try discriminate; intros _.
  - exists false. destruct s; reflexivity.
  - exists false. unfold Tsub, SFsub. rewrite Z.sub_diag. reflexivity.
Qed.

Lemma T_of_int_signed (z : Z) : 0 <= z -> signed false (T_of_int z) = true.
Proof.
  intros Hz. unfold T_of_int. destruct z as [|p|p]; try lia; [reflexivity|].
  apply binary_round_signed.
Qed.

(** ** The reference exponential *)

Lemma le_pow2_int_of_bound (m j e : Z) :
  0 < m -> 0 <= j -> m <= 2 ^ j -> le_pow2_int (j + e) m e.
Proof.
  intros Hm Hj Hle. right. split; [exact Hm|].
  rewrite (Zdigits2_log2 m Hm).
  destruct (Z.eq_dec m (2 ^ j)) as [->|Hne].
  - right. rewrite Z.log2_pow2 by lia. split; [lia | reflexivity].
  - left. assert (Z.log2 m < j) by (apply Z.log2_lt_pow2; lia). lia.
Qed.

Lemma le_pow2_int_mono (k k' m e : Z) :
  k <= k' -> le_pow2_int k m e -> le_pow2_int k' m e.
Proof.
  intros Hk [H|[Hm H]]; [left; exact H|]. right. split; [exact Hm|].
  destruct H as [H|[H Hp]]; [left; lia|].
  destruct (Z.eq_dec k k') as [->|Hne]; [right; split; assumption | left; lia].
Qed.

Lemma expf_nonpos (a : T) : signed true a = true -> le_pow2 0 (expf a) = true.
Proof.
  destruct a as [s|[|]| |[|] m e]; try discriminate; intros _; try reflexivity.
  unfold expf. destruct (8 <=? mag m e); [reflexivity|].
  cbn [cond_Zopp].
  set (X := - Z.shiftl (Z.pos m) (e + 64)).
  assert (HX : X <= 0).
  { unfold X. pose proof (proj2 (Z.shiftl_nonneg (Z.pos m) (e + 64)) ltac:(lia)). lia. }
  set (k := (2 * X + LN2) / (2 * LN2)).
  assert (Hk : k <= 0).
  { assert (k < 1); [|lia]. unfold k. apply Z.div_lt_upper_bound; unfold LN2; lia. }
  set (E := taylor 20 1 (2 ^ 64) (2 ^ 64) (X - k * LN2)).
  set (cap := if k =? 0 then 2 ^ 64 else 2 ^ 65).
  set (Ec := Z.max 0 (Z.min E cap)).
  assert (Hc : 0 <= Ec <= cap).
  { unfold Ec, cap. destruct (k =? 0); lia. }
  destruct Ec as [|p|p] eqn:EEc; try lia; [reflexivity|].
  cbn [binary_normalize]. apply binary_round_le; [lia|].
  unfold cap in Hc. destruct (k =? 0) eqn:Ek.
  - apply Z.eqb_eq in Ek. rewrite Ek.
    apply (le_pow2_int_of_bound (Zpos p) 64 (0 - 64)); lia.
  - apply Z.eqb_neq in Ek.
    apply (le_pow2_int_mono (65 + (k - 64))); [lia|].
    apply le_pow2_int_of_bound; lia.
Qed.

Lemma expf_meets_spec : expf_spec expf.
Proof. split; [reflexivity | exact expf_nonpos]. Qed.

(** ** Integers of the loops *)

Lemma wrap_int_id (z : Z) : - 2 ^ 31 <= z < 2 ^ 31 -> wrap_int z = z.
Proof. intros H. unfold wrap_int. rewrite Z.mod_small by lia. lia. Qed.

Lemma wrap_int_range (z : Z) : - 2 ^ 31 <= wrap_int z < 2 ^ 31.
Proof. unfold wrap_int. pose proof (Z.mod_pos_bound (z + 2 ^ 31) (2 ^ 32) ltac:(lia)). lia. Qed.

(** A non-negative [int] converts to a non-negative finite value. *)
Lemma T_of_int_finite (z : Z) : 0 <= z < 2 ^ 31 -> is_finite (T_of_int z) = true.
Proof.
  intros Hz. unfold T_of_int. destruct z as [|p|p]; try lia; [reflexivity|].
  cbn [binary_normalize]. apply (le_pow2_finite 31). apply binary_round_le; [lia|].
  apply (le_pow2_int_of_bound (Zpos p) 31 0); lia.
Qed.

Lemma In_int_range (lo hi r : Z) : In r (int_range lo hi) <-> lo <= r <= hi.
Proof.
  unfold int_range. rewrite in_map_iff. split.
  - intros (k & <- & Hk). apply in_seq in Hk. lia.
  - intros H. exists (Z.to_nat (r - lo)). split; [lia|]. apply in_seq. lia.
Qed.

Lemma window_range (dim r : Z) :
  0 <= dim <= 32767 ->
  In r (int_range (int_neg (int_of_size_t dim)) (int_of_size_t dim)) <-> - dim <= r <= dim.
Proof.
  intros H. unfold int_of_size_t, int_neg.
  rewrite (wrap_int_id dim) by lia. rewrite (wrap_int_id (- dim)) by lia.
  apply In_int_range.
Qed.

Lemma sd2_nonneg (r c : Z) :
  - 32767 <= r <= 32767 -> - 32767 <= c <= 32767 ->
  0 <= int_add (int_mul r r) (int_mul c c).
Proof.
  intros Hr Hc. unfold int_add, int_mul.
  assert (0 <= r * r <= 32767 * 32767) by nia.
  assert (0 <= c * c <= 32767 * 32767) by nia.
  rewrite (wrap_int_id (r * r)) by lia. rewrite (wrap_int_id (c * c)) by lia.
  rewrite wrap_int_id by lia. lia.
Qed.

(** ** Folds *)

Lemma fold_left_inv {A B : Type} (P : A -> Prop) (f : A -> B -> A) (l : list B) (a : A) :
  (forall a b, In b l -> P a -> P (f a b)) -> P a -> P (fold_left f l a).
Proof.
  revert a. induction l as [|b l IH]; intros a Hf Ha; simpl; [exact Ha|].
  apply IH.
  - intros a' b' Hb'. apply Hf. right. exact Hb'.
  - apply Hf; [left; reflexivity | exact Ha].
Qed.

Lemma fold_left_hit {A B : Type} (P Q : A -> Prop) (f : A -> B -> A) (l : list B)
      (b0 : B) (a : A) :
  In b0 l ->
  (forall a b, In b l -> P a -> P (f a b)) ->
  (forall a b, In b l -> Q a -> Q (f a b)) ->
  (forall a, P a -> Q (f a b0)) ->
  P a -> Q (fold_left f l a).
Proof.
  revert a. induction l as [|b l IH]; intros a Hin HP HQ Hhit Ha; [destruct Hin|].
  simpl. destruct Hin as [->|Hin].
  - apply fold_left_inv.
    + intros a' b' Hb'. apply HQ. right. exact Hb'.
    + apply Hhit. exact Ha.
  - apply IH; try assumption.
    + intros a' b' Hb'. apply HP. right. exact Hb'.
    + intros a' b' Hb'. apply HQ. right. exact Hb'.
    + apply HP; [left; reflexivity | exact Ha].
Qed.

(** The two nested loops over a window that contains the offset [(0, 0)]:
    [P] holds until the centre is visited, [Q] from then on. *)
Lemma window_hit {A : Type} (P Q : A -> Prop) (step : Z -> A -> Z -> A)
      (rng : list Z) (a : A) :
  In 0 rng ->
  (forall r c a, In r rng -> In c rng -> P a -> P (step r a c)) ->
  (forall r c a, In r rng -> In c rng -> Q a -> Q (step r a c)) ->
  (forall a, P a -> Q (step 0 a 0)) ->
  P a ->
  Q (fold_left (fun acc r => fold_left (step r) rng acc) rng a).
Proof.
  intros H0 HP HQ Hhit Ha.
  apply (fold_left_hit P Q) with (b0 := 0); try assumption.
  - intros a' r Hr Ha'. apply fold_left_inv; [|exact Ha'].
    intros a'' c Hc. apply HP; assumption.
  - intros a' r Hr Ha'. apply fold_left_inv; [|exact Ha'].
    intros a'' c Hc. apply HQ; assumption.
  - intros a' Ha'. apply (fold_left_hit P Q) with (b0 := 0); try assumption.
    + intros a'' c Hc. apply HP; assumption.
    + intros a'' c Hc. apply HQ; assumption.
Qed.

Lemma Tge_not_nan (a b : T) : Tge a b = true -> is_nan a = false.
Proof. unfold Tge, SFleb. destruct a, b; simpl; try reflexivity; discriminate. Qed.

Lemma getWithClampedRange_inBounds (v : Buffer2DView) (x y i j : Z) :
  inBounds v x y = true ->
  inBounds v (clamp i 0 (width v - 1)) (clamp j 0 (height v - 1)) = true.
Proof.
  rewrite !inBounds_iff. intros [Hx Hy].
  pose proof (clamp_in_range i 0 (width v - 1) ltac:(lia)).
  pose proof (clamp_in_range j 0 (height v - 1) ltac:(lia)). lia.
Qed.

Lemma getWithClampedRange_centre (v : Buffer2DView) (x y : Z) :
  inBounds v x y = true -> getWithClampedRange v (x + 0) (y + 0) = get v x y.
Proof.
  rewrite inBounds_iff. intros [Hx Hy]. unfold getWithClampedRange.
  rewrite !Z.add_0_r, !clamp_id by lia. reflexivity.
Qed.

Section Weights.

Variable exp : T -> T.
Hypothesis Hexp : expf_spec exp.
Variables gs gr : T.
Hypothesis HG : pos_value (Tmul (Tmul T2 gs) gs) = true.
Hypothesis HR : pos_finite (Tmul (Tmul T2 gr) gr) = true.

(** The argument of the spatial exponential has its sign bit set. *)
Lemma spatial_argument_signed (z : Z) :
  0 <= z < 2 ^ 31 ->
  signed true (Tdiv (Topp (T_of_int z)) (Tmul (Tmul T2 gs) gs)) = true.
Proof.
  intros Hz.
  pose proof (T_of_int_signed z ltac:(lia)) as Hs.
  pose proof (T_of_int_finite z Hz) as Hf.
  destruct (Tmul (Tmul T2 gs) gs) as [|[|]| |[|] mG eG]; try discriminate.
  - destruct (T_of_int z) as [s|s| |s m e]; try discriminate; reflexivity.
  - apply (Tdiv_signed true _ false). apply (Topp_signed false). exact Hs.
Qed.

(** Every weight lies in [[0, 1]]. *)
Lemma weight_le_one (p q : T) (r c : Z) :
  is_finite p = true -> is_nan q = false ->
  0 <= int_add (int_mul r r) (int_mul c c) ->
  le_pow2 0 (weight exp gs gr p q r c) = true.
Proof.
  intros Hp Hq Hsd. unfold weight.
  apply Tmul_le_one; apply (exp_nonpos exp Hexp).
  - apply spatial_argument_signed.
    pose proof (wrap_int_range (int_mul r r + int_mul c c)). unfold int_add in *. lia.
  - destruct (Tmul (Tmul T2 gr) gr) as [|?| |[|] mR eR]; try discriminate.
    apply (Tdiv_signed true _ false). apply (Topp_signed false).
    apply Tmul_self_signed. apply Tsub_not_nan; assumption.
Qed.

(** The centre has weight one. *)
Lemma weight_centre (p : T) : is_finite p = true -> weight exp gs gr p p 0 0 = T1.
Proof.
  intros Hp. unfold weight.
  destruct (Tmul (Tmul T2 gr) gr) as [|?| |[|] mR eR]; try discriminate.
  destruct (Tsub_self p Hp) as [s ->].
  change (T_of_int (int_add (int_mul 0 0) (int_mul 0 0))) with (S754_zero false).
  replace (Tmul (S754_zero s) (S754_zero s)) with (S754_zero false)
    by (destruct s; reflexivity).
  destruct (Tmul (Tmul T2 gs) gs) as [|[|]| |[|] mG eG]; try discriminate;
    cbn [Topp SFopp negb Tdiv SFdiv xorb]; rewrite !(exp_zero exp Hexp); reflexivity.
Qed.

End Weights.

Lemma ge_pow2_Tlt_zero (k : Z) (a : T) : ge_pow2 k a = true -> Tlt T0 a = true.
Proof. unfold Tlt, SFltb. destruct a as [s|[|]| |[|] m e]; simpl; congruence. Qed.

Lemma Tge_zero_signed (q m : T) :
  Teq m T0 = true -> Tge q m = true -> signed false q = true.
Proof.
  unfold Teq, Tge, SFeqb, SFleb.
  destruct m as [sm|sm| |sm mm em]; simpl; try (destruct sm; discriminate); try discriminate.
  intros _. destruct q as [s|[|]| |[|] mq eq]; simpl; congruence.
Qed.

Lemma signed_Tge_zero (o m : T) :
  Teq m T0 = true -> signed false o = true -> Tge o m = true.
Proof.
  unfold Teq, Tge, SFeqb, SFleb.
  destruct m as [sm|sm| |sm mm em]; simpl; try (destruct sm; discriminate); try discriminate.
  intros _. destruct o as [s|[|]| |[|] mo eo]; simpl; congruence.
Qed.

Lemma window_inv {A : Type} (P : A -> Prop) (step : Z -> A -> Z -> A)
      (rng : list Z) (a : A) :
  (forall r c a, In r rng -> In c rng -> P a -> P (step r a c)) ->
  P a ->
  P (fold_left (fun acc r => fold_left (step r) rng acc) rng a).
Proof.
  intros HP Ha. apply fold_left_inv; [|exact Ha].
  intros a' r Hr Ha'. apply fold_left_inv; [|exact Ha'].
  intros a'' c Hc. apply HP; assumption.
Qed.

Section Sums.

Variable exp : T -> T.
Hypothesis Hexp : expf_spec exp.
Variables gs gr : T.
Hypothesis HG : pos_value (Tmul (Tmul T2 gs) gs) = true.
Hypothesis HR : pos_finite (Tmul (Tmul T2 gr) gr) = true.
Variable img_in : Buffer2DView.
Variables dim x y : Z.
Hypothesis Hdim : 0 <= dim <= 32767.
Hypothesis Hin : inBounds img_in x y = true.
Hypothesis Hp : is_finite (get img_in x y) = true.

Let rng : list Z := int_range (int_neg (int_of_size_t dim)) (int_of_size_t dim).

Lemma rng_zero : In 0 rng.
Proof. apply window_range; lia. Qed.

Lemma rng_sd2 (r c : Z) : In r rng -> In c rng -> 0 <= int_add (int_mul r r) (int_mul c c).
Proof.
  intros Hr Hc. apply window_range in Hr, Hc; try exact Hdim.
  apply sd2_nonneg; lia.
Qed.

(** The divisor of the unconditional kernel is at least one. *)
Lemma bilateral_sumw_ge_one :
  (forall i j, inBounds img_in i j = true -> is_nan (get img_in i j) = false) ->
  ge_pow2 0 (snd (bilateral_sums exp img_in gs gr dim x y)) = true.
Proof.
  intros Hnan. unfold bilateral_sums. fold rng.
  apply (window_hit (fun acc => signed false (snd acc) = true)
                    (fun acc => ge_pow2 0 (snd acc) = true)
                    (fun r => bilateral_step exp img_in gs gr (get img_in x y) x y r)).
  - exact rng_zero.
  - intros r c acc Hr Hc Ha. unfold bilateral_step, accumulate. cbn [snd].
    apply Tadd_signed; [exact Ha|]. apply (le_pow2_signed 0).
    apply weight_le_one; try assumption.
    + apply Hnan. apply (getWithClampedRange_inBounds img_in x y). exact Hin.
    + apply rng_sd2; assumption.
  - intros r c acc Hr Hc Ha. unfold bilateral_step, accumulate. cbn [snd].
    apply Tadd_ge_l; [lia | exact Ha |]. apply (le_pow2_signed 0).
    apply weight_le_one; try assumption.
    + apply Hnan. apply (getWithClampedRange_inBounds img_in x y). exact Hin.
    + apply rng_sd2; assumption.
  - intros acc Ha. unfold bilateral_step, accumulate. cbn [snd].
    rewrite (getWithClampedRange_centre img_in x y Hin).
    rewrite (weight_centre exp Hexp gs gr HG HR _ Hp).
    apply Tadd_ge_r; [lia | exact Ha | reflexivity].
  - reflexivity.
Qed.

Variable minval : T.
Hypothesis Hpm : Tge (get img_in x y) minval = true.

(** The divisor of the limited kernel is at least one above the threshold. *)
Lemma bilateralLimited_sumw_ge_one :
  ge_pow2 0 (snd (bilateralLimited_sums exp img_in gs gr minval dim x y)) = true.
Proof.
  unfold bilateralLimited_sums. rewrite Hpm. fold rng.
  apply (window_hit (fun acc => signed false (snd acc) = true)
                    (fun acc => ge_pow2 0 (snd acc) = true)
                    (fun r => bilateralLimited_step exp img_in gs gr minval (get img_in x y) x y r)).
  - exact rng_zero.
  - intros r c acc Hr Hc Ha. unfold bilateralLimited_step.
    destruct (Tge (getWithClampedRange img_in (x + c) (y + r)) minval) eqn:Eq; [|exact Ha].
    unfold accumulate. cbn [snd].
    apply Tadd_signed; [exact Ha|]. apply (le_pow2_signed 0).
    apply weight_le_one; try assumption.
    + apply (Tge_not_nan _ minval). exact Eq.
    + apply rng_sd2; assumption.
  - intros r c acc Hr Hc Ha. unfold bilateralLimited_step.
    destruct (Tge (getWithClampedRange img_in (x + c) (y + r)) minval) eqn:Eq; [|exact Ha].
    unfold accumulate. cbn [snd].
    apply Tadd_ge_l; [lia | exact Ha |]. apply (le_pow2_signed 0).
    apply weight_le_one; try assumption.
    + apply (Tge_not_nan _ minval). exact Eq.
    + apply rng_sd2; assumption.
  - intros acc Ha. unfold bilateralLimited_step.
    rewrite (getWithClampedRange_centre img_in x y Hin), Hpm.
    unfold accumulate. cbn [snd].
    rewrite (weight_centre exp Hexp gs gr HG HR _ Hp).
    apply Tadd_ge_r; [lia | exact Ha | reflexivity].
  - reflexivity.
Qed.

Hypothesis Hzero : Teq minval T0 = true.
Hypothesis Hinf : forall i j, inBounds img_in i j = true -> get img_in i j <> S754_infinity false.

(** With the threshold at zero the numerator is a sum of non-negative
    terms and the divisor stays finite. *)
Lemma bilateralLimited_sums_range :
  signed false (fst (bilateralLimited_sums exp img_in gs gr minval dim x y)) = true /\
  le_pow2 25 (snd (bilateralLimited_sums exp img_in gs gr minval dim x y)) = true.
Proof.
  unfold bilateralLimited_sums. rewrite Hpm. fold rng.
  apply (window_inv (fun acc => signed false (fst acc) = true /\ le_pow2 25 (snd acc) = true)
                    (fun r => bilateralLimited_step exp img_in gs gr minval (get img_in x y) x y r)).
  - intros r c acc Hr Hc [Hs Hw]. unfold bilateralLimited_step.
    destruct (Tge (getWithClampedRange img_in (x + c) (y + r)) minval) eqn:Eq; [|split; assumption].
    set (q := getWithClampedRange img_in (x + c) (y + r)) in *.
    assert (Hw1 : le_pow2 0 (weight exp gs gr (get img_in x y) q r c) = true).
    { apply weight_le_one; try assumption.
      - apply (Tge_not_nan _ minval). exact Eq.
      - apply rng_sd2; assumption. }
    assert (Hq : signed false q = true) by (apply (Tge_zero_signed q minval); assumption).
    assert (Hqf : is_finite q = true).
    { pose proof (Hinf _ _ (getWithClampedRange_inBounds img_in x y (x + c) (y + r) Hin)) as Hne.
      fold (getWithClampedRange img_in (x + c) (y + r)) in Hne. fold q in Hne.
      destruct q as [s|[|]| |s m e]; try reflexivity; try discriminate. congruence. }
    unfold accumulate. cbn [fst snd]. split.
    + apply Tadd_signed; [exact Hs|].
      apply Tmul_signed; try assumption.
      * apply (le_pow2_signed 0). exact Hw1.
      * apply (le_pow2_finite 0). exact Hw1.
    + apply Tadd_le25; assumption.
  - split; reflexivity.
Qed.

(** The quotient is then non-negative, hence not below the threshold. *)
Lemma bilateralLimited_quotient_ge :
  Tge (quotient (bilateralLimited_sums exp img_in gs gr minval dim x y)) minval = true.
Proof.
  destruct bilateralLimited_sums_range as [Hs Hw].
  pose proof bilateralLimited_sumw_ge_one as Hw1.
  unfold quotient.
  destruct (bilateralLimited_sums exp img_in gs gr minval dim x y) as [s w].
  cbn [fst snd] in *.
  destruct w as [?|?| |[|] mw ew]; try discriminate.
  apply signed_Tge_zero; [exact Hzero|].
  apply (Tdiv_signed false s false). exact Hs.
Qed.

End Sums.

(** ** Exact operations *)

(** Rounding returns a canonical binary32 number unchanged, however its
    mantissa was shifted left. *)
Lemma binary_round_aux_canonical (sx : bool) (m : positive) (e j : Z) :
  bounded prec emax m e = true -> 0 <= j ->
  binary_round_aux prec emax sx (Zpos m * 2 ^ j) (e - j) loc_Exact = S754_finite sx m e.
Proof.
  intros Hb Hj. unfold bounded, canonical_mantissa in Hb.
  apply andb_true_iff in Hb. destruct Hb as [Hc He].
  apply Z.eqb_eq in Hc. apply Z.leb_le in He.
  change (Z.pos (digits2_pos m)) with (Zdigits2 (Zpos m)) in Hc.
  assert (HP : 0 < 2 ^ j) by (apply Z.pow_pos_nonneg; lia).
  assert (HM : 0 < Zpos m * 2 ^ j) by (apply Z.mul_pos_pos; lia).
  destruct (binary_round_aux_spec sx (Zpos m * 2 ^ j) (e - j) loc_Exact ltac:(lia))
    as (m2 & _ & Hdown & Hexact & ->).
  rewrite Zdigits2_shl in * by lia.
  replace (Zdigits2 (Z.pos m) + j + (e - j)) with (Zdigits2 (Zpos m) + e) in * by lia.
  rewrite Hc in *. replace (e - (e - j)) with j in * by lia.
  assert (Hq : shift_m (Zpos m * 2 ^ j) j = Zpos m).
  { unfold shift_m. destruct (0 <? j) eqn:E.
    - apply Z.div_mul. lia.
    - apply Z.ltb_ge in E. replace j with 0 by lia. rewrite Z.pow_0_r. lia. }
  assert (He1 : shift_e (e - j) j = e).
  { unfold shift_e. destruct (0 <? j) eqn:E; [lia|]. apply Z.ltb_ge in E. lia. }
  assert (Hm2 : m2 = Zpos m).
  { rewrite <- Hq. destruct (Z.lt_ge_cases 0 j) as [H|H].
    - apply Hdown; [exact H|]. apply Z.mul_pow2_bits_low. lia.
    - apply Hexact; [exact H | reflexivity]. }
  rewrite He1, Hm2, Hc, Z.sub_diag. cbn [shift_m shift_e Z.ltb Z.compare round_result].
  replace (e <=? emax - prec) with true by (symmetry; apply Z.leb_le; exact He).
  reflexivity.
Qed.

Lemma Tmul_one_l (s : bool) (m : positive) (e : Z) :
  bounded prec emax m e = true -> Tmul T1 (S754_finite s m e) = S754_finite s m e.
Proof.
  intros Hb. unfold Tmul, T1, SFmul. cbn [xorb].
  rewrite Pos2Z.inj_mul, Z.mul_comm.
  replace (-23 + e) with (e - 23) by lia.
  apply (binary_round_aux_canonical s m e 23 Hb). lia.
Qed.

Lemma Tdiv_one_r (s : bool) (m : positive) (e : Z) :
  bounded prec emax m e = true -> Tdiv (S754_finite s m e) T1 = S754_finite s m e.
Proof.
  intros Hb. pose proof Hb as Hb'. unfold bounded, canonical_mantissa in Hb'.
  apply andb_true_iff in Hb'. destruct Hb' as [Hc He].
  apply Z.eqb_eq in Hc. change (Z.pos (digits2_pos m)) with (Zdigits2 (Zpos m)) in Hc.
  unfold Tdiv, T1, SFdiv, SFdiv_core_binary.
  change (Zdigits2 8388608) with 24.
  set (d := Zdigits2 (Zpos m)) in *.
  set (e' := Z.min (fexp prec emax (d + e - (24 + -23))) (e - -23)).
  assert (He' : e' <= e).
  { unfold e'. rewrite fexp_eq in *. lia. }
  set (sh := e - -23 - e').
  assert (Hsh : 23 <= sh) by (unfold sh; lia).
  destruct sh as [|p|p] eqn:Esh; try lia.
  rewrite <- Esh. rewrite Z.shiftl_mul_pow2 by lia.
  assert (Hdiv : Z.div_eucl (Z.pos m * 2 ^ sh) 8388608 = (Zpos m * 2 ^ (sh - 23), 0)).
  { assert (E : Z.pos m * 2 ^ sh = Zpos m * 2 ^ (sh - 23) * 8388608).
    { replace sh with ((sh - 23) + 23) at 1 by lia. rewrite Z.pow_add_r by lia.
      change (2 ^ 23) with 8388608. lia. }
    pose proof (Z.div_mul (Zpos m * 2 ^ (sh - 23)) 8388608 ltac:(lia)) as Hq.
    pose proof (Z.mod_mul (Zpos m * 2 ^ (sh - 23)) 8388608 ltac:(lia)) as Hr.
    rewrite <- E in Hq, Hr. unfold Z.div in Hq. unfold Z.modulo in Hr.
    destruct (Z.div_eucl (Z.pos m * 2 ^ sh) 8388608) as [q r]. congruence. }
  rewrite Hdiv. cbn [xorb new_location Z.even new_location_even Z.eqb].
  replace e' with (e - (sh - 23)) by lia.
  replace (xorb s false) with s by (destruct s; reflexivity).
  apply binary_round_aux_canonical; [exact Hb | lia].
Qed.

Section ZeroWindow.

Variable exp : T -> T.
Hypothesis Hexp : expf_spec exp.
Variables gs gr : T.
Hypothesis HG : pos_value (Tmul (Tmul T2 gs) gs) = true.
Hypothesis HR : pos_finite (Tmul (Tmul T2 gr) gr) = true.

(** One pass over the centre alone returns the centre value. *)
Lemma quotient_centre_only (p : T) :
  is_finite p = true -> valid_binary prec emax p = true ->
  Teq (quotient (accumulate (T0, T0) (weight exp gs gr p p 0 0) p)) p = true.
Proof.
  intros Hp Hv. rewrite (weight_centre exp Hexp gs gr HG HR p Hp).
  unfold quotient, accumulate. cbn [fst snd].
  destruct p as [s|s| |s m e]; try discriminate.
  - destruct s; reflexivity.
  - cbn [valid_binary] in Hv. rewrite (Tmul_one_l s m e Hv).
    change (Tadd T0 (S754_finite s m e)) with (S754_finite s m e).
    change (Tadd T0 T1) with T1.
    rewrite (Tdiv_one_r s m e Hv).
    unfold Teq, SFeqb, SFcompare.
    destruct s; rewrite Z.compare_refl;
      change (PosDef.Pos.compare_cont Eq m m) with (Pos.compare_cont Eq m m);
      rewrite Pos.compare_cont_refl; reflexivity.
Qed.

Lemma bilateral_sums_dim0 img_in x y :
  inBounds img_in x y = true ->
  bilateral_sums exp img_in gs gr 0 x y
  = accumulate (T0, T0) (weight exp gs gr (get img_in x y) (get img_in x y) 0 0)
               (get img_in x y).
Proof.
  intros Hin. unfold bilateral_sums.
  change (int_range (int_neg (int_of_size_t 0)) (int_of_size_t 0)) with [0].
  cbn [fold_left]. unfold bilateral_step.
  rewrite (getWithClampedRange_centre img_in x y Hin). reflexivity.
Qed.

Lemma bilateralLimited_sums_dim0 img_in minval x y :
  inBounds img_in x y = true ->
  Tge (get img_in x y) minval = true ->
  bilateralLimited_sums exp img_in gs gr minval 0 x y
  = accumulate (T0, T0) (weight exp gs gr (get img_in x y) (get img_in x y) 0 0)
               (get img_in x y).
Proof.
  intros Hin Hp. unfold bilateralLimited_sums. rewrite Hp.
  change (int_range (int_neg (int_of_size_t 0)) (int_of_size_t 0)) with [0].
  cbn [fold_left]. unfold bilateralLimited_step.
  rewrite (getWithClampedRange_centre img_in x y Hin), Hp. reflexivity.
Qed.

End ZeroWindow.

(** ** Dependence on the input view *)


(** * The claims *)

Section Claims.

Variable exp : T -> T.

(** C3.  In the threshold-limited variant, at every in-bounds pixel whose
    value is below [minval] the accumulators stay [S = 0] and [W = 0], the
    value written to [O(x, y)] is the quotient [S / W = 0 / 0], which is
    NaN, and a value test detects it ([O(x, y) == O(x, y)] is false). *)
Theorem bilateralLimited_below_threshold
        img_in gs gr minval dim env d x y :
  dims_match img_in (img_out d) = true ->
  inBounds img_in x y = true ->
  Tlt (get img_in x y) minval = true ->
  let o := get (img_out (snd (bilateralLimited exp img_in gs gr minval dim env d))) x y in
  bilateralLimited_sums exp img_in gs gr minval dim x y = (T0, T0) /\
  o = quotient (T0, T0) /\
  o = NaN /\
  is_nan o = true /\
  Teq o o = false.
Proof.
  intros Hd Hin Hlt o.
  assert (Hs : bilateralLimited_sums exp img_in gs gr minval dim x y = (T0, T0)).
  { apply bilateralLimited_sums_below. apply Tlt_not_Tge. exact Hlt. }
  assert (Ho : o = quotient (T0, T0)).
  { unfold o. rewrite (bilateralLimited_output exp) by assumption. rewrite Hs. reflexivity. }
  split; [exact Hs|]. split; [exact Ho|].
  rewrite Ho, quotient_zero_zero. repeat split.
Qed.

(** C4.  In the threshold-limited variant, for an in-bounds pixel [(x, y)]
    with [I(x, y) >= minval], replacing the value of a sample that is below
    [minval] (a window neighbour or any other position) by another value
    below [minval] leaves the sums [S] and [W] and the output [O(x, y)]
    unchanged: such a sample contributes to neither sum. *)
Theorem bilateralLimited_threshold_exclusion
        img_in gs gr minval dim env d x y i j q' :
  dims_match img_in (img_out d) = true ->
  inBounds img_in x y = true ->
  Tge (get img_in x y) minval = true ->
  Tlt (get img_in i j) minval = true ->
  Tlt q' minval = true ->
  bilateralLimited_sums exp (put img_in i j q') gs gr minval dim x y
  = bilateralLimited_sums exp img_in gs gr minval dim x y /\
  get (img_out (snd (bilateralLimited exp (put img_in i j q') gs gr minval dim env d))) x y
  = get (img_out (snd (bilateralLimited exp img_in gs gr minval dim env d))) x y.
Proof.
  intros Hd Hin Hp Hq Hq'.
  assert (Hs : bilateralLimited_sums exp (put img_in i j q') gs gr minval dim x y
               = bilateralLimited_sums exp img_in gs gr minval dim x y)
    by (apply bilateralLimited_sums_replace; assumption).
  split; [exact Hs|].
  rewrite !(bilateralLimited_output exp) by assumption.
  rewrite Hs. reflexivity.
Qed.

(** C5, amended.  For both entry points, if the widths or the heights of
    the input and the output view differ, the call throws a
    [std::runtime_error] at entry, before any device work and before any
    write to [O] (the device is left as it was); the message is the fixed
    text "In/Out dimensions don't match" and does not carry the shapes. *)
Theorem shape_mismatch_rejected img_in gs gr minval dim env d :
  dims_match img_in (img_out d) = false ->
  bilateral exp img_in gs gr dim env d
  = (Thrown (runtime_error "In/Out dimensions don't match"), d) /\
  bilateralLimited exp img_in gs gr minval dim env d
  = (Thrown (runtime_error "In/Out dimensions don't match"), d).
Proof.
  intros H. unfold bilateral, bilateralLimited. rewrite H. split; reflexivity.
Qed.

(** C9.  Neither kernel writes to [O] at a coordinate outside the image
    rectangle, whatever the launch grid; so neither entry point changes an
    out-of-bounds element of the output view. *)
Theorem out_of_bounds_untouched
        img_in gs gr minval dim (smem : dim3 -> SharedMemory) gridDim blockDim o env d x y :
  inBounds img_in x y = false ->
  get (launch (fun b => Kernel_bilateral exp img_in gs gr dim (smem b) b)
              gridDim blockDim o) x y = get o x y /\
  get (launch (Kernel_bilateralLimited exp img_in gs gr minval dim)
              gridDim blockDim o) x y = get o x y /\
  get (img_out (snd (bilateral exp img_in gs gr dim env d))) x y = get (img_out d) x y /\
  get (img_out (snd (bilateralLimited exp img_in gs gr minval dim env d))) x y
  = get (img_out d) x y.
Proof.
  intros Hout.
  pose proof (fun s g b o => launch_unguarded _ _ _
                (Kernel_bilateral_writes exp img_in gs gr dim s) g b o x y Hout) as H1.
  pose proof (fun g b o => launch_unguarded _ _ _
                (Kernel_bilateralLimited_writes exp img_in gs gr minval dim) g b o x y Hout) as H2.
  split; [apply H1|]. split; [apply H2|]. split.
  - unfold bilateral. destruct (negb (dims_match img_in (img_out d))); [reflexivity|].
    destruct (InitDimFromBufferOver img_in) as [bd gd].
    destruct (negb (sync_status env =? cudaSuccess)); cbn [snd img_out]; apply H1.
  - unfold bilateralLimited. destruct (negb (dims_match img_in (img_out d))); [reflexivity|].
    destruct (InitDimFromBufferOver img_in) as [bd gd].
    destruct (negb (sync_status env =? cudaSuccess)); cbn [snd img_out]; apply H2.
Qed.

Hypothesis Hexp : expf_spec exp.

(** C6, amended.  Let, in binary32, [2*gs*gs] be positive (neither zero
    nor NaN) and [2*gr*gr] positive and finite, let [dim <= 32767] and let
    the centre sample [p] be finite.  Then the divisor [W] at the final
    division is strictly positive: in the unconditional variant when no
    sample of the image is NaN, in the limited variant when [p >= minval].
    (The centre contributes the weight 1 and every other weight lies in
    [[0, 1]].) *)
Theorem sumw_positive img_in gs gr minval dim x y :
  0 <= dim <= 32767 ->
  pos_value (Tmul (Tmul T2 gs) gs) = true ->
  pos_finite (Tmul (Tmul T2 gr) gr) = true ->
  inBounds img_in x y = true ->
  is_finite (get img_in x y) = true ->
  ((forall i j, inBounds img_in i j = true -> is_nan (get img_in i j) = false) ->
   Tlt T0 (snd (bilateral_sums exp img_in gs gr dim x y)) = true) /\
  (Tge (get img_in x y) minval = true ->
   Tlt T0 (snd (bilateralLimited_sums exp img_in gs gr minval dim x y)) = true).
Proof.
  intros Hdim HG HR Hin Hp. split.
  - intros Hnan. apply (ge_pow2_Tlt_zero 0).
    apply bilateral_sumw_ge_one; assumption.
  - intros Hpm. apply (ge_pow2_Tlt_zero 0).
    apply bilateralLimited_sumw_ge_one; assumption.
Qed.

(** C8, amended.  In the threshold-limited variant with the threshold at
    zero ([minval == 0]), [2*gs*gs] positive, [2*gr*gr] positive and finite,
    [dim <= 32767] and no sample equal to [+inf]: for every in-bounds pixel
    whose value is finite and [>= minval], the output [O(x, y)] is
    [>= minval]. *)
Theorem bilateralLimited_output_ge_zero_threshold
        img_in gs gr minval dim env d x y :
  0 <= dim <= 32767 ->
  pos_value (Tmul (Tmul T2 gs) gs) = true ->
  pos_finite (Tmul (Tmul T2 gr) gr) = true ->
  Teq minval T0 = true ->
  (forall i j, inBounds img_in i j = true -> get img_in i j <> S754_infinity false) ->
  dims_match img_in (img_out d) = true ->
  inBounds img_in x y = true ->
  is_finite (get img_in x y) = true ->
  Tge (get img_in x y) minval = true ->
  Tge (get (img_out (snd (bilateralLimited exp img_in gs gr minval dim env d))) x y) minval
  = true.
Proof.
  intros Hdim HG HR Hz Hinf Hd Hin Hp Hpm.
  rewrite (bilateralLimited_output exp) by assumption.
  apply bilateralLimited_quotient_ge; assumption.
Qed.

End Claims.

(** * The claims on concrete inputs *)

(** C1.  On the 1x1 image [[1.0]] with [gs = gr = 1], [dim = 0] and a
    shared memory that holds 2.0, the quotient [S / W] of line 73 is 1.0,
    and the unconditional entry point leaves 2.0, the value [smem(0)] of
    line 74, in [O(0, 0)]. *)
Theorem bilateral_overwrites_quotient :
  quotient (bilateral_sums expf (of_rows [[T1]]) T1 T1 0 0 0) = T1 /\
  get (img_out (snd (bilateral expf (of_rows [[T1]]) T1 T1 0 (env_smem T2)
                              (fresh_device 1 1)))) 0 0 = T2.
Proof. split; by_evaluation. Qed.

(** C2.  Scenario S1 ([dim = 0], [gs = gr = 1]) with a shared memory that
    holds 0.0: the unconditional entry point leaves 0.0 in every pixel, and
    no output pixel equals the input pixel. *)
Theorem bilateral_dim0_not_identity :
  let o := img_out (snd (bilateral expf S1_image T1 T1 0 (env_smem T0) (fresh_device 2 2))) in
  (get o 0 0 = T0 /\ get o 1 0 = T0 /\ get o 0 1 = T0 /\ get o 1 1 = T0) /\
  (Teq (get o 0 0) (get S1_image 0 0) = false /\
   Teq (get o 1 0) (get S1_image 1 0) = false /\
   Teq (get o 0 1) (get S1_image 0 1) = false /\
   Teq (get o 1 1) (get S1_image 1 1) = false).
Proof. cbv zeta. repeat split; by_evaluation. Qed.

(** C7.  Scenario S2 (5x5 of 7.0, [dim = 1], [gs = gr = 1]) with a shared
    memory that holds 0.0: every sample of the window of the pixel [(2, 2)]
    is 7.0, and the unconditional entry point leaves 0.0 in [O(2, 2)], which
    is below the minimum of the window.  (The quotient of line 73 is 7.0
    there; on the 5x5 image of 10.0 it is [10485761 * 2^-20], one unit in
    the last place above 10.0.) *)
Theorem bilateral_output_outside_window :
  let o := img_out (snd (bilateral expf S2_image T1 T1 1 (env_smem T0) (fresh_device 5 5))) in
  (get o 2 2 = T0 /\ Tle (T_of_int 7) (get o 2 2) = false) /\
  quotient (bilateral_sums expf S2_image T1 T1 1 2 2) = T_of_int 7 /\
  (quotient (bilateral_sums expf (constant_view 5 5 (T_of_int 10)) T1 T1 1 2 2)
   = S754_finite false 10485761 (-20) /\
   T_of_int 10 = S754_finite false 10485760 (-20)).
Proof. cbv zeta. repeat split; by_evaluation. Qed.

(** C10.  Two runs of the unconditional entry point on the same input view
    (scenario S1), the same parameters and the same output view, which
    differ in the content of the shared memory only, leave different values
    in [O(0, 0)]. *)
Theorem bilateral_depends_on_shared_memory :
  get (img_out (snd (bilateral expf S1_image T1 T1 0 (env_smem T0) (fresh_device 2 2)))) 0 0
  = T0 /\
  get (img_out (snd (bilateral expf S1_image T1 T1 0 (env_smem T1) (fresh_device 2 2)))) 0 0
  = T1.
Proof. split; by_evaluation. Qed.

(** Witness of C3: scenario S5, the pixel [(1, 0)] holds -1 < 0 = minval. *)
Lemma bilateralLimited_below_threshold_witness :
  dims_match S5_image (img_out (fresh_device 3 3)) = true /\
  inBounds S5_image 1 0 = true /\
  Tlt (get S5_image 1 0) T0 = true /\
  let o := get (img_out (snd (bilateralLimited expf S5_image T1 T1 T0 1 (env_smem T0)
                                               (fresh_device 3 3)))) 1 0 in
  bilateralLimited_sums expf S5_image T1 T1 T0 1 1 0 = (T0, T0) /\
  o = quotient (T0, T0) /\ o = NaN /\ is_nan o = true /\ Teq o o = false.
Proof.
  split; [by_evaluation|]. split; [by_evaluation|]. split; [by_evaluation|].
  apply (bilateralLimited_below_threshold expf S5_image T1 T1 T0 1 (env_smem T0)
           (fresh_device 3 3) 1 0); by_evaluation.
Defined.

(** Witness of C4: scenario S5, the sample -1 at [(1, 0)] replaced by -2;
    the output at the centre [(1, 1)] is the same. *)
Lemma bilateralLimited_threshold_exclusion_witness :
  dims_match S5_image (img_out (fresh_device 3 3)) = true /\
  inBounds S5_image 1 1 = true /\
  Tge (get S5_image 1 1) T0 = true /\
  Tlt (get S5_image 1 0) T0 = true /\
  Tlt (T_of_int (-2)) T0 = true /\
  bilateralLimited_sums expf (put S5_image 1 0 (T_of_int (-2))) T1 T1 T0 1 1 1
  = bilateralLimited_sums expf S5_image T1 T1 T0 1 1 1 /\
  get (img_out (snd (bilateralLimited expf (put S5_image 1 0 (T_of_int (-2))) T1 T1 T0 1
                                      (env_smem T0) (fresh_device 3 3)))) 1 1
  = get (img_out (snd (bilateralLimited expf S5_image T1 T1 T0 1
                                        (env_smem T0) (fresh_device 3 3)))) 1 1.
Proof.
  split; [by_evaluation|]. split; [by_evaluation|]. split; [by_evaluation|].
  split; [by_evaluation|]. split; [by_evaluation|].
  apply (bilateralLimited_threshold_exclusion expf S5_image T1 T1 T0 1 (env_smem T0)
           (fresh_device 3 3) 1 1 1 0 (T_of_int (-2))); by_evaluation.
Defined.

(** Counterexample of C5: were the shapes readable from the message, the
    4x4 / 4x5 call of scenario S6 and a 1x1 / 2x2 call, which throw the same
    message, would have the same shapes. *)
Lemma shape_mismatch_message_fixed :
  ~ carries_shapes (fun img_in d => bilateral expf img_in T1 T1 1 (env_smem T0) d) /\
  ~ carries_shapes (fun img_in d => bilateralLimited expf img_in T1 T1 T0 1 (env_smem T0) d).
Proof.
  split; intros [decode H];
    pose proof (H (constant_view 4 4 T0) (fresh_device 4 5) _ eq_refl) as H1;
    pose proof (H (constant_view 1 1 T0) (fresh_device 2 2) _ eq_refl) as H2;
    rewrite H1 in H2; discriminate H2.
Qed.

(** Witness of C5: scenario S6, [I] is 4x4 and [O] is 4x5. *)
Lemma shape_mismatch_rejected_witness :
  dims_match (constant_view 4 4 T0) (img_out (fresh_device 4 5)) = false /\
  bilateral expf (constant_view 4 4 T0) T1 T1 1 (env_smem T0) (fresh_device 4 5)
  = (Thrown (runtime_error "In/Out dimensions don't match"), fresh_device 4 5) /\
  bilateralLimited expf (constant_view 4 4 T0) T1 T1 T0 1 (env_smem T0) (fresh_device 4 5)
  = (Thrown (runtime_error "In/Out dimensions don't match"), fresh_device 4 5).
Proof.
  split; [by_evaluation|].
  apply (shape_mismatch_rejected expf (constant_view 4 4 T0) T1 T1 T0 1 (env_smem T0)
           (fresh_device 4 5)); by_evaluation.
Defined.

(** Witness of C9: scenario S1 (2x2), the coordinate [(2, 0)] is outside. *)
Lemma out_of_bounds_untouched_witness :
  inBounds S1_image 2 0 = false /\
  get (launch (fun b => Kernel_bilateral expf S1_image T1 T1 1 (smem_of (env_smem T1) b) b)
              (mkDim3 1 1) (mkDim3 32 32) (constant_view 2 2 T0)) 2 0
  = get (constant_view 2 2 T0) 2 0 /\
  get (launch (Kernel_bilateralLimited expf S1_image T1 T1 T0 1)
              (mkDim3 1 1) (mkDim3 32 32) (constant_view 2 2 T0)) 2 0
  = get (constant_view 2 2 T0) 2 0 /\
  get (img_out (snd (bilateral expf S1_image T1 T1 1 (env_smem T1) (fresh_device 2 2)))) 2 0
  = get (img_out (fresh_device 2 2)) 2 0 /\
  get (img_out (snd (bilateralLimited expf S1_image T1 T1 T0 1 (env_smem T1)
                                      (fresh_device 2 2)))) 2 0
  = get (img_out (fresh_device 2 2)) 2 0.
Proof.
  split; [by_evaluation|].
  apply (out_of_bounds_untouched expf S1_image T1 T1 T0 1 (smem_of (env_smem T1))
           (mkDim3 1 1) (mkDim3 32 32) (constant_view 2 2 T0) (env_smem T1)
           (fresh_device 2 2) 2 0); by_evaluation.
Defined.

(** Counterexample of C6: with [gs > 0] and [gr > 0] the divisor is not
    positive
    - on the 1x1 image [[NaN]] ([dim = 0], [gs = gr = 1]): [W] is NaN;
    - in the limited variant on the 1x1 image [[+inf]] with [minval = 0]
      ([dim = 0], [gs = gr = 1]), where [p >= minval]: [p - p] is NaN and so
      is [W];
    - on the 1x1 image [[1.0]] with [gs = 2^-80] ([dim = 0], [gr = 1]):
      [2*gs*gs] underflows to zero, the spatial exponent is [-0 / 0], [W] is
      NaN;
    - on the 2x1 image [[2^100, -2^100]] with [gr = 2^100] ([dim = 1],
      [gs = 1]): [(p - q)^2] and [2*gr*gr] overflow, the range exponent is
      [-inf / inf], [W] is NaN;
    - for [dim = 2^31 + 1], whatever the exponential: [(int)dim] is
      [-2147483647], the loops are not entered and [W] is zero. *)
Lemma sumw_not_positive :
  (Tlt T0 T1 = true /\ Tlt T0 (T_of_dyadic 1 (-80)) = true) /\
  (inBounds (of_rows [[NaN]]) 0 0 = true /\ inBounds (of_rows [[T1]]) 0 0 = true) /\
  Tlt T0 (snd (bilateral_sums expf (of_rows [[NaN]]) T1 T1 0 0 0)) = false /\
  (Tge (S754_infinity false) T0 = true /\
   Tlt T0 (snd (bilateralLimited_sums expf (of_rows [[S754_infinity false]])
                                      T1 T1 T0 0 0 0)) = false) /\
  Tlt T0 (snd (bilateral_sums expf (of_rows [[T1]]) (T_of_dyadic 1 (-80)) T1 0 0 0)) = false /\
  (Tlt T0 (T_of_dyadic 1 100) = true /\
   Tlt T0 (snd (bilateral_sums expf (of_rows [[T_of_dyadic 1 100; T_of_dyadic (-1) 100]])
                               T1 (T_of_dyadic 1 100) 1 0 0)) = false) /\
  (forall exp,
     bilateral_sums exp (of_rows [[T1]]) T1 T1 2147483649 0 0 = (T0, T0) /\
     bilateralLimited_sums exp (of_rows [[T1]]) T1 T1 T0 2147483649 0 0 = (T0, T0)) /\
  Tlt T0 (snd (T0, T0)) = false.
Proof.
  split; [split; by_evaluation|]. split; [split; by_evaluation|].
  split; [by_evaluation|].
  split; [split; by_evaluation|]. split; [by_evaluation|].
  split; [split; by_evaluation|].
  split; [intros exp; split; reflexivity | reflexivity].
Qed.

(** Witness of C6: scenario S2 (5x5 of 7.0, [dim = 1], [gs = gr = 1]) at
    the pixel [(2, 2)], with the reference exponential. *)
Lemma sumw_positive_witness :
  expf_spec expf /\
  0 <= 1 <= 32767 /\
  pos_value (Tmul (Tmul T2 T1) T1) = true /\
  pos_finite (Tmul (Tmul T2 T1) T1) = true /\
  inBounds S2_image 2 2 = true /\
  is_finite (get S2_image 2 2) = true /\
  (forall i j, inBounds S2_image i j = true -> is_nan (get S2_image i j) = false) /\
  Tge (get S2_image 2 2) T0 = true /\
  Tlt T0 (snd (bilateral_sums expf S2_image T1 T1 1 2 2)) = true /\
  Tlt T0 (snd (bilateralLimited_sums expf S2_image T1 T1 T0 1 2 2)) = true.
Proof.
  assert (Hnan : forall i j, inBounds S2_image i j = true -> is_nan (get S2_image i j) = false)
    by (intros i j _; reflexivity).
  assert (Hpm : Tge (get S2_image 2 2) T0 = true) by by_evaluation.
  split; [exact expf_meets_spec|]. split; [lia|]. split; [by_evaluation|].
  split; [by_evaluation|].
  split; [by_evaluation|]. split; [by_evaluation|]. split; [exact Hnan|].
  split; [exact Hpm|].
  destruct (sumw_positive expf expf_meets_spec S2_image T1 T1 T0 1 2 2) as [H1 H2];
    [lia | by_evaluation | by_evaluation | by_evaluation | by_evaluation |].
  split; [exact (H1 Hnan) | exact (H2 Hpm)].
Defined.

(** Counterexample of C8: the output of a pixel with [p >= minval] is not
    [>= minval]
    - on the 1x1 image [[1.5]] with [minval = 1.5], [gs = 0.5], [gr = 1] and
      [dim = 1]: the nine clamped reads all return 1.5, the range weight is
      [exp(-0) = 1], the spatial weights are [1], [exp(-2)] (four times)
      and [exp(-4)] (four times), the rounded sums are
      [S = 10158208 * 2^-22] and [W = 13544279 * 2^-23], and
      [O(0, 0) = S / W = 12582910 * 2^-23] is one unit in the last place
      below [1.5 = 12582912 * 2^-23];
    - on the 2x1 image [[1.0, +inf]] with [minval = 0] ([dim = 1],
      [gs = gr = 1]) at the pixel [(0, 0)]: the neighbour [+inf] has the
      weight [exp(-1/2) * exp(-inf) = 0], the term [0 * inf] is NaN and so
      is [O(0, 0)];
    - for [dim = 2^31 + 1] on the image [[1.0]] with [minval = 0]: the loops
      are not entered and [O(0, 0) = 0 / 0] is NaN. *)
Lemma bilateralLimited_output_below_minval :
  (inBounds (of_rows [[T_of_dyadic 3 (-1)]]) 0 0 = true /\
   Tge (get (of_rows [[T_of_dyadic 3 (-1)]]) 0 0) (T_of_dyadic 3 (-1)) = true /\
   (expf (T_of_int (-2)) = S754_finite false 9082197 (-26) /\
    expf (T_of_int (-4)) = S754_finite false 9833134 (-29)) /\
   bilateralLimited_sums expf (of_rows [[T_of_dyadic 3 (-1)]])
                         (T_of_dyadic 1 (-1)) T1 (T_of_dyadic 3 (-1)) 1 0 0
   = (S754_finite false 10158208 (-22), S754_finite false 13544279 (-23)) /\
   get (img_out (snd (bilateralLimited expf (of_rows [[T_of_dyadic 3 (-1)]])
                                       (T_of_dyadic 1 (-1)) T1 (T_of_dyadic 3 (-1)) 1
                                       (env_smem T0) (fresh_device 1 1)))) 0 0
   = S754_finite false 12582910 (-23) /\
   T_of_dyadic 3 (-1) = S754_finite false 12582912 (-23) /\
   Tge (S754_finite false 12582910 (-23)) (T_of_dyadic 3 (-1)) = false) /\
  (Tge (get (of_rows [[T1; S754_infinity false]]) 0 0) T0 = true /\
   expf (S754_infinity true) = T0 /\
   get (img_out (snd (bilateralLimited expf (of_rows [[T1; S754_infinity false]]) T1 T1 T0 1
                                       (env_smem T0) (fresh_device 2 1)))) 0 0 = NaN) /\
  (Tge T1 T0 = true /\
   get (img_out (snd (bilateralLimited expf (of_rows [[T1]]) T1 T1 T0 2147483649
                                       (env_smem T0) (fresh_device 1 1)))) 0 0 = NaN) /\
  Tge NaN T0 = false.
Proof.
  split; [repeat split; by_evaluation|].
  split; [repeat split; by_evaluation|].
  split; [split; by_evaluation | reflexivity].
Qed.

(** Witness of C8: scenario S5 ([minval = 0], [dim = 1], [gs = gr = 1]) at
    the centre [(1, 1)], with the reference exponential. *)
Lemma bilateralLimited_output_ge_zero_threshold_witness :
  expf_spec expf /\
  0 <= 1 <= 32767 /\
  pos_value (Tmul (Tmul T2 T1) T1) = true /\
  pos_finite (Tmul (Tmul T2 T1) T1) = true /\
  Teq T0 T0 = true /\
  (forall i j, inBounds S5_image i j = true -> get S5_image i j <> S754_infinity false) /\
  dims_match S5_image (img_out (fresh_device 3 3)) = true /\
  inBounds S5_image 1 1 = true /\
  is_finite (get S5_image 1 1) = true /\
  Tge (get S5_image 1 1) T0 = true /\
  Tge (get (img_out (snd (bilateralLimited expf S5_image T1 T1 T0 1 (env_smem T0)
                                           (fresh_device 3 3)))) 1 1) T0 = true.
Proof.
  assert (Hinf : forall i j, inBounds S5_image i j = true ->
                             get S5_image i j <> S754_infinity false).
  { intros i j H. apply inBounds_iff in H. simpl in H.
    assert (Hi : i = 0 \/ i = 1 \/ i = 2) by lia.
    assert (Hj : j = 0 \/ j = 1 \/ j = 2) by lia.
    destruct Hi as [->|[->| ->]], Hj as [->|[->| ->]]; vm_compute; discriminate. }
  split; [exact expf_meets_spec|]. split; [lia|]. split; [by_evaluation|].
  split; [by_evaluation|].
  split; [by_evaluation|]. split; [exact Hinf|]. split; [by_evaluation|].
  split; [by_evaluation|]. split; [by_evaluation|]. split; [by_evaluation|].
  apply (bilateralLimited_output_ge_zero_threshold expf expf_meets_spec S5_image T1 T1 T0 1
           (env_smem T0) (fresh_device 3 3) 1 1);
    [lia | by_evaluation | by_evaluation | by_evaluation | exact Hinf
     | by_evaluation | by_evaluation | by_evaluation | by_evaluation].
Defined.

(** * Further properties *)





(** X3.  Neither entry point changes the shape of the output view. *)
Theorem output_shape_preserved exp img_in gs gr minval dim env d :
  shape (img_out (snd (bilateral exp img_in gs gr dim env d))) = shape (img_out d) /\
  shape (img_out (snd (bilateralLimited exp img_in gs gr minval dim env d)))
  = shape (img_out d).
Proof.
  assert (H : forall K guard val, writes_own_pixel K guard val ->
              forall g b o, shape (launch K g b o) = shape o).
  { intros K guard val HK g b o. unfold shape.
    destruct (launch_shape K guard val HK g b o) as [-> ->]. reflexivity. }
  split.
  - unfold bilateral. destruct (negb (dims_match img_in (img_out d))); [reflexivity|].
    destruct (InitDimFromBufferOver img_in) as [bd gd].
    destruct (negb (sync_status env =? cudaSuccess)); cbn [snd img_out];
      apply (H _ _ _ (Kernel_bilateral_writes exp img_in gs gr dim (smem_of env))).
  - unfold bilateralLimited. destruct (negb (dims_match img_in (img_out d))); [reflexivity|].
    destruct (InitDimFromBufferOver img_in) as [bd gd].
    destruct (negb (sync_status env =? cudaSuccess)); cbn [snd img_out];
      apply (H _ _ _ (Kernel_bilateralLimited_writes exp img_in gs gr minval dim)).
Qed.

(** X4.  With matching shapes, a device status other than [cudaSuccess]
    at the synchronisation makes either entry point throw a [CUDAException]
    that carries this status and the text "Error launching the kernel",
    after one kernel launch and one synchronisation; with [cudaSuccess] the
    call returns. *)
Theorem device_error_reported exp img_in gs gr minval dim env d :
  dims_match img_in (img_out d) = true ->
  let expected :=
    if sync_status env =? cudaSuccess then Returned
    else Thrown (CUDAException (sync_status env) "Error launching the kernel") in
  let work := [KernelLaunch (snd (InitDimFromBufferOver img_in))
                            (fst (InitDimFromBufferOver img_in));
               DeviceSynchronize] in
  (fst (bilateral exp img_in gs gr dim env d) = expected /\
   events (snd (bilateral exp img_in gs gr dim env d)) = events d ++ work) /\
  (fst (bilateralLimited exp img_in gs gr minval dim env d) = expected /\
   events (snd (bilateralLimited exp img_in gs gr minval dim env d)) = events d ++ work).
Proof.
  intros Hd expected work. unfold expected, work, bilateral, bilateralLimited.
  rewrite Hd. cbn [negb].
  destruct (InitDimFromBufferOver img_in) as [bd gd]. cbn [fst snd].
  destruct (sync_status env =? cudaSuccess); cbn [negb fst snd events];
    repeat split.
Qed.

Lemma device_error_reported_witness :
  dims_match S1_image (img_out (fresh_device 2 2)) = true /\
  (fst (bilateral expf S1_image T1 T1 0 (mkEnv (fun _ _ => T0) 700) (fresh_device 2 2))
   = Thrown (CUDAException 700 "Error launching the kernel") /\
   events (snd (bilateral expf S1_image T1 T1 0 (mkEnv (fun _ _ => T0) 700)
                          (fresh_device 2 2)))
   = [KernelLaunch (mkDim3 1 1) (mkDim3 32 32); DeviceSynchronize]) /\
  (fst (bilateralLimited expf S1_image T1 T1 T0 0 (mkEnv (fun _ _ => T0) 700)
                         (fresh_device 2 2))
   = Thrown (CUDAException 700 "Error launching the kernel") /\
   events (snd (bilateralLimited expf S1_image T1 T1 T0 0 (mkEnv (fun _ _ => T0) 700)
                                 (fresh_device 2 2)))
   = [KernelLaunch (mkDim3 1 1) (mkDim3 32 32); DeviceSynchronize]).
Proof.
  split; [by_evaluation|].
  apply (device_error_reported expf S1_image T1 T1 T0 0 (mkEnv (fun _ _ => T0) 700)
           (fresh_device 2 2)); by_evaluation.
Defined.

(** X5.  Identity at zero window.  For [dim == 0], with [2*gs*gs] positive
    and [2*gr*gr] positive and finite, at every in-bounds pixel that holds a
    finite binary32 number: the quotient line 73 of the unconditional kernel
    computes is [== I(x, y)], and when [I(x, y) >= minval] the limited entry
    point leaves [O(x, y) == I(x, y)]. *)
Theorem zero_window_identity exp img_in gs gr minval env d x y :
  expf_spec exp ->
  pos_value (Tmul (Tmul T2 gs) gs) = true ->
  pos_finite (Tmul (Tmul T2 gr) gr) = true ->
  dims_match img_in (img_out d) = true ->
  inBounds img_in x y = true ->
  is_finite (get img_in x y) = true ->
  valid_binary prec emax (get img_in x y) = true ->
  Teq (quotient (bilateral_sums exp img_in gs gr 0 x y)) (get img_in x y) = true /\
  (Tge (get img_in x y) minval = true ->
   Teq (get (img_out (snd (bilateralLimited exp img_in gs gr minval 0 env d))) x y)
       (get img_in x y) = true).
Proof.
  intros Hexp HG HR Hd Hin Hp Hv. split.
  - rewrite (bilateral_sums_dim0 exp gs gr img_in x y Hin).
    apply quotient_centre_only; assumption.
  - intros Hpm. rewrite (bilateralLimited_output exp) by assumption.
    rewrite (bilateralLimited_sums_dim0 exp gs gr img_in minval x y Hin Hpm).
    apply quotient_centre_only; assumption.
Qed.

Lemma zero_window_identity_witness :
  expf_spec expf /\
  pos_value (Tmul (Tmul T2 T1) T1) = true /\
  pos_finite (Tmul (Tmul T2 T1) T1) = true /\
  dims_match S1_image (img_out (fresh_device 2 2)) = true /\
  inBounds S1_image 1 1 = true /\
  is_finite (get S1_image 1 1) = true /\
  valid_binary prec emax (get S1_image 1 1) = true /\
  Tge (get S1_image 1 1) T0 = true /\
  Teq (quotient (bilateral_sums expf S1_image T1 T1 0 1 1)) (get S1_image 1 1) = true /\
  Teq (get (img_out (snd (bilateralLimited expf S1_image T1 T1 T0 0 (env_smem T0)
                                           (fresh_device 2 2)))) 1 1)
      (get S1_image 1 1) = true.
Proof.
  assert (Hpm : Tge (get S1_image 1 1) T0 = true) by by_evaluation.
  split; [exact expf_meets_spec|]. split; [by_evaluation|]. split; [by_evaluation|].
  split; [by_evaluation|]. split; [by_evaluation|]. split; [by_evaluation|].
  split; [by_evaluation|]. split; [exact Hpm|].
  destruct (zero_window_identity expf S1_image T1 T1 T0 (env_smem T0) (fresh_device 2 2) 1 1)
    as [H1 H2];
    [exact expf_meets_spec | by_evaluation | by_evaluation | by_evaluation | by_evaluation
     | by_evaluation | by_evaluation |].
  split; [exact H1 | exact (H2 Hpm)].
Defined.

(** * Further lemmas *)

(** ** Orders of execution *)

Section Order.

Variable K : kernel.
Variable guard : Z -> Z -> bool.
Variable val : dim3 -> Z -> Z -> T.
Hypothesis HK : writes_own_pixel K guard val.
Variable blockDim : dim3.

(** Two runs over the same threads, in any two orders, leave the same
    samples when the threads that address one pixel belong to one block. *)
Lemma run_threads_same (l l' : list (dim3 * dim3)) (o : Buffer2DView) (i j : Z) :
  (forall bt, In bt l <-> In bt l') ->
  (forall bt bt', In bt l -> In bt' l ->
     thread_x blockDim bt = thread_x blockDim bt' ->
     thread_y blockDim bt = thread_y blockDim bt' -> fst bt = fst bt') ->
  get (run_threads K blockDim l o) i j = get (run_threads K blockDim l' o) i j.
Proof.
  intros Hmem Hinj. unfold run_threads.
  destruct (guard i j) eqn:Hg.
  - destruct (existsb (fun bt => (thread_x blockDim bt =? i) && (thread_y blockDim bt =? j)) l)
      eqn:Ex.
    + apply existsb_exists in Ex. destruct Ex as (bt0 & Hin0 & Hc).
      apply andb_true_iff in Hc. rewrite !Z.eqb_eq in Hc. destruct Hc as [Hx0 Hy0].
      rewrite (run_written K guard val HK blockDim l o i j (val (fst bt0) i j));
        [| exact Hg | exists bt0; tauto |].
      * symmetry. apply (run_written K guard val HK); [exact Hg | exists bt0 | ].
        -- split; [apply Hmem; exact Hin0 | tauto].
        -- intros bt Hin Hx Hy. rewrite (Hinj bt bt0); try congruence.
           apply Hmem. exact Hin.
      * intros bt Hin Hx Hy. rewrite (Hinj bt bt0); congruence.
    + assert (Hnone : forall bt, In bt l ->
                ~ (thread_x blockDim bt = i /\ thread_y blockDim bt = j)).
      { intros bt Hin [Hx Hy].
        assert (Ht : existsb (fun bt => (thread_x blockDim bt =? i) && (thread_y blockDim bt =? j)) l
                     = true).
        { apply existsb_exists. exists bt. split; [exact Hin|].
          rewrite Hx, Hy, !Z.eqb_refl. reflexivity. }
        congruence. }
      rewrite !(run_untouched K guard val HK); [reflexivity | |].
      * intros bt Hin _. apply Hnone. apply Hmem. exact Hin.
      * intros bt Hin _. apply Hnone. exact Hin.
  - rewrite !(run_untouched K guard val HK); [reflexivity | |];
      intros bt _ Hgt [Hx Hy]; rewrite Hx, Hy in Hgt; congruence.
Qed.

End Order.

(** Two threads of one launch that address the same pixel are in the same
    block. *)
Lemma threads_block_unique (gridDim blockDim : dim3) (bt bt' : dim3 * dim3) :
  In bt (threads gridDim blockDim) -> In bt' (threads gridDim blockDim) ->
  thread_x blockDim bt = thread_x blockDim bt' ->
  thread_y blockDim bt = thread_y blockDim bt' -> fst bt = fst bt'.
Proof.
  destruct bt as [[bx by_] [tx ty]], bt' as [[bx' by'] [tx' ty']].
  rewrite !In_threads. unfold thread_x, thread_y. simpl.
  intros [_ [Hx Hy]] [_ [Hx' Hy']] Ex Ey. f_equal; nia.
Qed.

Lemma launch_any_order (K : kernel) (guard : Z -> Z -> bool) (val : dim3 -> Z -> Z -> T)
      (gridDim blockDim : dim3) (l : list (dim3 * dim3)) (o : Buffer2DView) (i j : Z) :
  writes_own_pixel K guard val ->
  Permutation l (threads gridDim blockDim) ->
  get (run_threads K blockDim l o) i j = get (launch K gridDim blockDim o) i j.
Proof.
  intros HK Hp. change (launch K gridDim blockDim o)
    with (run_threads K blockDim (threads gridDim blockDim) o).
  apply (run_threads_same K guard val HK).
  - intros bt. split; intros H.
    + apply (Permutation_in _ Hp H).
    + apply (Permutation_in _ (Permutation_sym Hp) H).
  - intros bt bt' H H'. apply (threads_block_unique gridDim);
      [apply (Permutation_in _ Hp H) | apply (Permutation_in _ Hp H')].
Qed.

(** ** Windows *)

Lemma int_range_empty (lo hi : Z) : hi < lo -> int_range lo hi = [].
Proof.
  intros H. unfold int_range. replace (Z.to_nat (hi + 1 - lo)) with 0%nat by lia. reflexivity.
Qed.


(** The offsets the loops visit for a radius that fits an [int]. *)
Lemma window_offsets (dim r : Z) :
  0 <= dim < 2 ^ 31 ->
  In r (int_range (int_neg (int_of_size_t dim)) (int_of_size_t dim)) <-> - dim <= r <= dim.
Proof.
  intros H. unfold int_of_size_t, int_neg.
  rewrite (wrap_int_id dim) by lia. rewrite (wrap_int_id (- dim)) by lia.
  apply In_int_range.
Qed.

(** A radius in the upper half of the 32-bit range is negative as an [int]:
    the loops visit nothing. *)
Lemma window_offsets_narrowed (dim : Z) :
  2 ^ 31 < dim < 2 ^ 32 ->
  int_range (int_neg (int_of_size_t dim)) (int_of_size_t dim) = [].
Proof.
  intros H. unfold int_of_size_t, int_neg.
  assert (E : wrap_int dim = dim - 2 ^ 32).
  { unfold wrap_int.
    pose proof (Z.div_mod (dim + 2 ^ 31) (2 ^ 32) ltac:(lia)).
    pose proof (Z.mod_pos_bound (dim + 2 ^ 31) (2 ^ 32) ltac:(lia)). lia. }
  rewrite E. rewrite (wrap_int_id (- (dim - 2 ^ 32))) by lia.
  apply int_range_empty. lia.
Qed.

Lemma wrap_int_period (z k : Z) : wrap_int (z + k * 2 ^ 32) = wrap_int z.
Proof.
  unfold wrap_int. replace (z + k * 2 ^ 32 + 2 ^ 31) with (z + 2 ^ 31 + k * 2 ^ 32) by lia.
  rewrite Z_mod_plus_full. reflexivity.
Qed.

Lemma clamp_window (x c n dim : Z) :
  0 <= x < n -> - dim <= c <= dim -> x - dim <= clamp (x + c) 0 (n - 1) <= x + dim.
Proof. unfold clamp. lia. Qed.

(** ** Folds that act once *)



Lemma Tge_nan_l (b : T) : Tge NaN b = false.
Proof. destruct b; reflexivity. Qed.

Lemma Tge_nan_r (a : T) : Tge a NaN = false.
Proof. destruct a; reflexivity. Qed.

Section More.

Variable exp : T -> T.

(** ** The whole effect of the limited entry point *)


Lemma bilateralLimited_sums_local img_in img_in' gs gr minval dim x y :
  0 <= dim < 2 ^ 31 ->
  shape img_in = shape img_in' ->
  inBounds img_in x y = true ->
  (forall i j, inBounds img_in i j = true ->
     x - dim <= i <= x + dim -> y - dim <= j <= y + dim ->
     Tge (get img_in i j) minval = true \/ Tge (get img_in' i j) minval = true ->
     get img_in i j = get img_in' i j) ->
  bilateralLimited_sums exp img_in gs gr minval dim x y
  = bilateralLimited_sums exp img_in' gs gr minval dim x y.
Proof.
  intros Hdim Hs Hin Heq. unfold shape in Hs. injection Hs as Hw Hh.
  pose proof Hin as Hb. apply inBounds_iff in Hb.
  unfold bilateralLimited_sums.
  destruct (Tge (get img_in x y) minval) eqn:Ep.
  - rewrite <- (Heq x y Hin ltac:(lia) ltac:(lia) (or_introl Ep)), Ep.
    apply fold_left_ext. intros acc r Hr. apply window_offsets in Hr; [|exact Hdim].
    apply fold_left_ext. intros acc' c Hc. apply window_offsets in Hc; [|exact Hdim].
    unfold bilateralLimited_step, getWithClampedRange. rewrite <- Hw, <- Hh.
    set (i := clamp (x + c) 0 (width img_in - 1)).
    set (j := clamp (y + r) 0 (height img_in - 1)).
    assert (Hij : inBounds img_in i j = true)
      by (apply (getWithClampedRange_inBounds img_in x y); exact Hin).
    assert (Hi : x - dim <= i <= x + dim) by (apply clamp_window; lia).
    assert (Hj : y - dim <= j <= y + dim) by (apply clamp_window; lia).
    destruct (Tge (get img_in i j) minval) eqn:E1.
    + rewrite <- (Heq i j Hij Hi Hj (or_introl E1)), E1. reflexivity.
    + destruct (Tge (get img_in' i j) minval) eqn:E2; [|reflexivity].
      rewrite <- (Heq i j Hij Hi Hj (or_intror E2)) in E2. congruence.
  - destruct (Tge (get img_in' x y) minval) eqn:E2; [|reflexivity].
    rewrite <- (Heq x y Hin ltac:(lia) ltac:(lia) (or_intror E2)) in E2. congruence.
Qed.

Lemma bilateralLimited_sums_all_valid img_in gs gr minval dim x y :
  inBounds img_in x y = true ->
  (forall i j, inBounds img_in i j = true -> Tge (get img_in i j) minval = true) ->
  bilateralLimited_sums exp img_in gs gr minval dim x y
  = bilateral_sums exp img_in gs gr dim x y.
Proof.
  intros Hin Hall. unfold bilateralLimited_sums, bilateral_sums.
  rewrite (Hall x y Hin).
  apply fold_left_ext. intros acc r _. apply fold_left_ext. intros acc' c _.
  unfold bilateralLimited_step, bilateral_step, getWithClampedRange.
  rewrite Hall; [reflexivity|].
  apply (getWithClampedRange_inBounds img_in x y). exact Hin.
Qed.

Lemma sums_narrowed img_in gs gr minval dim x y :
  2 ^ 31 < dim < 2 ^ 32 ->
  bilateral_sums exp img_in gs gr dim x y = (T0, T0) /\
  bilateralLimited_sums exp img_in gs gr minval dim x y = (T0, T0).
Proof.
  intros H. unfold bilateral_sums, bilateralLimited_sums.
  rewrite (window_offsets_narrowed dim H). cbn [fold_left].
  split; [reflexivity|]. destruct (Tge _ _); reflexivity.
Qed.

Lemma sums_period img_in gs gr minval dim k x y :
  bilateral_sums exp img_in gs gr (dim + k * 2 ^ 32) x y
  = bilateral_sums exp img_in gs gr dim x y /\
  bilateralLimited_sums exp img_in gs gr minval (dim + k * 2 ^ 32) x y
  = bilateralLimited_sums exp img_in gs gr minval dim x y.
Proof.
  unfold bilateral_sums, bilateralLimited_sums, int_of_size_t.
  rewrite wrap_int_period. split; reflexivity.
Qed.

End More.

Section Bounds.

Variable exp : T -> T.
Hypothesis Hexp : expf_spec exp.
Variables gs gr : T.
Hypothesis HG : pos_value (Tmul (Tmul T2 gs) gs) = true.
Hypothesis HR : pos_finite (Tmul (Tmul T2 gr) gr) = true.
Variable img_in : Buffer2DView.
Variables dim x y : Z.
Hypothesis Hdim : 0 <= dim <= 32767.
Hypothesis Hin : inBounds img_in x y = true.
Hypothesis Hp : is_finite (get img_in x y) = true.

Lemma window_weight_le_one (q : T) (r c : Z) :
  In r (int_range (int_neg (int_of_size_t dim)) (int_of_size_t dim)) ->
  In c (int_range (int_neg (int_of_size_t dim)) (int_of_size_t dim)) ->
  is_nan q = false ->
  le_pow2 0 (weight exp gs gr (get img_in x y) q r c) = true.
Proof.
  intros Hr Hc Hq. apply window_range in Hr, Hc; try exact Hdim.
  apply weight_le_one; try assumption. apply sd2_nonneg; lia.
Qed.

(** The divisor of the limited kernel never exceeds [2^25]. *)
Lemma bilateralLimited_sumw_le25 (minval : T) :
  le_pow2 25 (snd (bilateralLimited_sums exp img_in gs gr minval dim x y)) = true.
Proof.
  unfold bilateralLimited_sums.
  destruct (Tge (get img_in x y) minval); [|reflexivity].
  apply (window_inv (fun acc => le_pow2 25 (snd acc) = true)
           (fun r => bilateralLimited_step exp img_in gs gr minval (get img_in x y) x y r)).
  - intros r c acc Hr Hc Ha. unfold bilateralLimited_step.
    destruct (Tge (getWithClampedRange img_in (x + c) (y + r)) minval) eqn:Eq; [|exact Ha].
    unfold accumulate. cbn [snd]. apply Tadd_le25; [exact Ha|].
    apply window_weight_le_one; try assumption.
    apply (Tge_not_nan _ minval). exact Eq.
  - reflexivity.
Qed.

(** Nor does the divisor of the unconditional kernel, on an image without
    NaN. *)
Lemma bilateral_sumw_le25 :
  (forall i j, inBounds img_in i j = true -> is_nan (get img_in i j) = false) ->
  le_pow2 25 (snd (bilateral_sums exp img_in gs gr dim x y)) = true.
Proof.
  intros Hnan. unfold bilateral_sums.
  apply (window_inv (fun acc => le_pow2 25 (snd acc) = true)
           (fun r => bilateral_step exp img_in gs gr (get img_in x y) x y r)).
  - intros r c acc Hr Hc Ha. unfold bilateral_step, accumulate. cbn [snd].
    apply Tadd_le25; [exact Ha|].
    apply window_weight_le_one; try assumption.
    apply Hnan. apply (getWithClampedRange_inBounds img_in x y). exact Hin.
  - reflexivity.
Qed.

End Bounds.


(** The sums of the limited kernel are a function of the values its taps
    read, in the order of the loops. *)
Lemma bilateralLimited_sums_taps exp img_in img_in' gs gr minval dim x y x' y' :
  0 <= dim < 2 ^ 31 ->
  get img_in x y = get img_in' x' y' ->
  (forall r c, - dim <= r <= dim -> - dim <= c <= dim ->
     getWithClampedRange img_in (x + c) (y + r) = getWithClampedRange img_in' (x' + c) (y' + r)) ->
  bilateralLimited_sums exp img_in gs gr minval dim x y
  = bilateralLimited_sums exp img_in' gs gr minval dim x' y'.
Proof.
  intros Hdim Hp Htaps. unfold bilateralLimited_sums. rewrite <- Hp.
  destruct (Tge (get img_in x y) minval); [|reflexivity].
  apply fold_left_ext. intros acc r Hr. apply window_offsets in Hr; [|exact Hdim].
  apply fold_left_ext. intros acc' c Hc. apply window_offsets in Hc; [|exact Hdim].
  unfold bilateralLimited_step. rewrite (Htaps r c Hr Hc). reflexivity.
Qed.

Lemma getWithClampedRange_interior (v : Buffer2DView) (dim x y r c : Z) :
  dim <= x < width v - dim -> dim <= y < height v - dim ->
  - dim <= r <= dim -> - dim <= c <= dim ->
  getWithClampedRange v (x + c) (y + r) = get v (x + c) (y + r).
Proof.
  intros Hx Hy Hr Hc. unfold getWithClampedRange. rewrite !clamp_id by lia. reflexivity.
Qed.

(** ** Windows of zeros *)

Lemma Teq_zero (q : T) : Teq q T0 = true -> exists s, q = S754_zero s.
Proof.
  unfold Teq, SFeqb. destruct q as [s|s| |s m e]; simpl; try discriminate.
  - intros _. exists s. reflexivity.
  - destruct s; discriminate.
  - destruct s; discriminate.
Qed.

(** A weight in [[0, 1]] times a zero, added to [+0], is [+0]. *)
Lemma accumulate_zero (w : T) (s : bool) :
  le_pow2 0 w = true -> Tadd T0 (Tmul w (S754_zero s)) = T0.
Proof.
  destruct w as [sw|sw| |[|] m e]; try discriminate; intros _; destruct s; try destruct sw;
    reflexivity.
Qed.

Section Zeros.

Variable exp : T -> T.
Hypothesis Hexp : expf_spec exp.
Variables gs gr : T.
Hypothesis HG : pos_value (Tmul (Tmul T2 gs) gs) = true.
Hypothesis HR : pos_finite (Tmul (Tmul T2 gr) gr) = true.
Variable img_in : Buffer2DView.
Variables dim x y : Z.
Hypothesis Hdim : 0 <= dim <= 32767.
Hypothesis Hin : inBounds img_in x y = true.
Variable minval : T.
Hypothesis Hpm : Tge (get img_in x y) minval = true.
Hypothesis Hzeros : forall i j, inBounds img_in i j = true ->
  x - dim <= i <= x + dim -> y - dim <= j <= y + dim ->
  Tge (get img_in i j) minval = true -> Teq (get img_in i j) T0 = true.

Lemma centre_zero : exists s, get img_in x y = S754_zero s.
Proof. apply Teq_zero. apply Hzeros; [exact Hin | lia | lia | exact Hpm]. Qed.

Lemma centre_finite : is_finite (get img_in x y) = true.
Proof. destruct centre_zero as [s ->]. reflexivity. Qed.

(** The numerator stays [+0] when every passing sample of the window is a
    zero. *)
Lemma bilateralLimited_sum_zero :
  fst (bilateralLimited_sums exp img_in gs gr minval dim x y) = T0.
Proof.
  pose proof Hin as Hb. apply inBounds_iff in Hb.
  unfold bilateralLimited_sums. rewrite Hpm.
  apply (window_inv (fun acc => fst acc = T0)
           (fun r => bilateralLimited_step exp img_in gs gr minval (get img_in x y) x y r)).
  - intros r c acc Hr Hc Ha. unfold bilateralLimited_step.
    destruct (Tge (getWithClampedRange img_in (x + c) (y + r)) minval) eqn:Eq; [|exact Ha].
    pose proof Hr as Hr'. pose proof Hc as Hc'.
    apply window_range in Hr', Hc'; try exact Hdim.
    unfold accumulate. cbn [fst]. rewrite Ha.
    assert (Hw : le_pow2 0 (weight exp gs gr (get img_in x y)
                                   (getWithClampedRange img_in (x + c) (y + r)) r c) = true).
    { apply weight_le_one; try assumption.
      - exact centre_finite.
      - apply (Tge_not_nan _ minval). exact Eq.
      - apply sd2_nonneg; lia. }
    destruct (Teq_zero (getWithClampedRange img_in (x + c) (y + r))) as [s Es].
    { unfold getWithClampedRange in *. apply Hzeros; [| | | exact Eq].
      - apply (getWithClampedRange_inBounds img_in x y). exact Hin.
      - unfold clamp. lia.
      - unfold clamp. lia. }
    rewrite Es at 2. apply accumulate_zero. exact Hw.
  - reflexivity.
Qed.

End Zeros.

(** ** Products that do not overflow *)

(** A set round bit puts the mantissa at least half a unit above the
    truncated one. *)
Lemma testbit_round_up (m s : Z) :
  0 <= m -> 0 < s -> Z.testbit m (s - 1) = true ->
  (m / 2 ^ s) * 2 ^ s + 2 ^ (s - 1) <= m.
Proof.
  intros Hm Hs Hb. apply Z.testbit_true in Hb; [|lia].
  assert (Hp : 0 < 2 ^ (s - 1)) by (apply Z.pow_pos_nonneg; lia).
  assert (E : 2 ^ s = 2 ^ (s - 1) * 2).
  { replace s with ((s - 1) + 1) at 1 by lia. rewrite Z.pow_add_r by lia. reflexivity. }
  rewrite E. rewrite <- Z.div_div by lia.
  set (h := m / 2 ^ (s - 1)) in *.
  pose proof (Z.div_mod h 2 ltac:(lia)) as Hh.
  pose proof (Z.mul_div_le m (2 ^ (s - 1)) Hp) as Hle. fold h in Hle.
  nia.
Qed.

Lemma digits_lt_pow2 (m k : Z) : 0 < m -> 0 <= k -> m < 2 ^ k -> Zdigits2 m <= k.
Proof.
  intros Hm Hk H. rewrite (Zdigits2_log2 m Hm).
  assert (Z.log2 m < k) by (apply Z.log2_lt_pow2; lia). lia.
Qed.

Lemma digits_ge_pow2 (m k : Z) : 0 <= k -> 2 ^ k <= m -> k + 1 <= Zdigits2 m.
Proof.
  intros Hk H. assert (Hm : 0 < m) by (pose proof (Z.pow_pos_nonneg 2 k); lia).
  rewrite (Zdigits2_log2 m Hm).
  assert (k <= Z.log2 m) by (apply Z.log2_le_pow2; lia). lia.
Qed.

Lemma pow2_digits (m : Z) : 0 < m -> 2 ^ (Zdigits2 m - 1) <= m < 2 ^ Zdigits2 m.
Proof.
  intros Hm. rewrite (Zdigits2_log2 m Hm).
  pose proof (Z.log2_spec m Hm) as H. unfold Z.succ in H.
  replace (Z.log2 m + 1 - 1) with (Z.log2 m) by lia. exact H.
Qed.

(** Rounding a value that does not exceed the largest binary32 number
    [(2^24 - 1) * 2^104] gives a zero or a finite number. *)
Lemma binary_round_aux_no_overflow (sx : bool) (m e : Z) :
  0 < m -> e <= 104 -> m <= (2 ^ 24 - 1) * 2 ^ (104 - e) ->
  is_finite (binary_round_aux prec emax sx m e loc_Exact) = true.
Proof.
  intros Hm He Hv.
  assert (HD : Zdigits2 m + e <= 128).
  { assert (m < 2 ^ (128 - e)).
    { replace (128 - e) with (24 + (104 - e)) by lia. rewrite Z.pow_add_r by lia.
      assert (0 < 2 ^ (104 - e)) by (apply Z.pow_pos_nonneg; lia). nia. }
    pose proof (digits_lt_pow2 m (128 - e) Hm ltac:(lia) H). lia. }
  destruct (binary_round_aux_spec sx m e loc_Exact ltac:(lia))
    as (m2 & Hb & Hdown & Hexact & ->).
  set (s1 := fexp prec emax (Zdigits2 m + e) - e) in *.
  set (q := shift_m m s1) in *. set (e1 := shift_e e s1) in *.
  assert (Hq0 : 0 <= q) by (apply shift_m_nonneg; lia).
  assert (HK : m2 = 0 \/ (0 < m2 /\ e1 <= 104 /\ Zdigits2 m2 + e1 <= 128)).
  { destruct (Z.eq_dec m2 0) as [->|Hne]; [left; reflexivity|]. right.
    split; [lia|].
    destruct (Z.lt_ge_cases 0 s1) as [Hs|Hs].
    - assert (Ee1 : e1 = fexp prec emax (Zdigits2 m + e)).
      { unfold e1, shift_e, s1.
        replace (0 <? _) with true by (symmetry; apply Z.ltb_lt; exact Hs). lia. }
      rewrite fexp_eq in Ee1. split; [lia|].
      destruct (Z.lt_ge_cases s1 (Zdigits2 m)) as [Hlt|Hge].
      + destruct (shift_mag m e s1 Hm Hlt) as [Hqp Hmag]. fold q in Hqp, Hmag. fold e1 in Hmag.
        destruct (Z.eq_dec m2 q) as [->|Hne2]; [rewrite Hmag; exact HD|].
        assert (Em2 : m2 = q + 1) by lia.
        destruct (Z.le_gt_cases (Zdigits2 m + e) 127) as [H127|H128].
        * pose proof (pow2_digits q Hqp) as [_ Hup].
          assert (Hdq : 1 <= Zdigits2 q).
          { rewrite (Zdigits2_log2 q Hqp). pose proof (Z.log2_nonneg q). lia. }
          assert (Zdigits2 m2 <= Zdigits2 q + 1).
          { apply digits_lt_pow2; [lia | lia |].
            rewrite Em2. rewrite Z.pow_add_r by lia. lia. }
          lia.
        * assert (ED : Zdigits2 m + e = 128) by lia.
          assert (Ee : e1 = 104) by lia.
          assert (Edq : Zdigits2 q = 24) by lia.
          pose proof (pow2_digits q Hqp) as [_ Hup]. rewrite Edq in Hup.
          destruct (Z.lt_ge_cases (q + 1) (2 ^ 24)) as [Hsmall|Hbig].
          -- pose proof (digits_lt_pow2 m2 24 ltac:(lia) ltac:(lia) ltac:(lia)). lia.
          -- exfalso.
             assert (Hbit : Z.testbit m (s1 - 1) = true).
             { destruct (Z.testbit m (s1 - 1)) eqn:Eb; [reflexivity|].
               exfalso. apply Hne2. apply Hdown; [exact Hs | reflexivity]. }
             pose proof (testbit_round_up m s1 ltac:(lia) Hs Hbit) as Hup2.
             assert (Eq : q = m / 2 ^ s1).
             { unfold q, shift_m.
               replace (0 <? s1) with true by (symmetry; apply Z.ltb_lt; exact Hs).
               reflexivity. }
             rewrite <- Eq in Hup2.
             assert (Es : 104 - e = s1).
             { unfold e1, shift_e in Ee.
               replace (0 <? s1) with true in Ee by (symmetry; apply Z.ltb_lt; exact Hs). lia. }
             rewrite Es in Hv.
             assert (0 < 2 ^ (s1 - 1)) by (apply Z.pow_pos_nonneg; lia).
             assert (0 < 2 ^ s1) by (apply Z.pow_pos_nonneg; lia).
             nia.
      + assert (Eq0 : q = 0).
        { unfold q, shift_m.
          replace (0 <? s1) with true by (symmetry; apply Z.ltb_lt; exact Hs).
          apply Z.div_small. split; [lia|].
          pose proof (pow2_digits m Hm) as [_ Hup].
          apply Z.lt_le_trans with (2 ^ Zdigits2 m); [exact Hup|].
          apply Z.pow_le_mono_r; lia. }
        assert (Em2 : m2 = 1) by lia. subst m2.
        change (Zdigits2 1) with 1. unfold s1 in Hge. rewrite fexp_eq in Hge. lia.
    - assert (Em2 : m2 = q) by (apply Hexact; [exact Hs | reflexivity]).
      assert (Eq : q = m).
      { unfold q, shift_m. replace (0 <? s1) with false; [reflexivity|].
        symmetry. apply Z.ltb_ge. exact Hs. }
      assert (Ee1 : e1 = e).
      { unfold e1, shift_e. replace (0 <? s1) with false; [reflexivity|].
        symmetry. apply Z.ltb_ge. exact Hs. }
      rewrite Em2, Eq, Ee1. lia. }
  set (s2 := fexp prec emax (Zdigits2 m2 + e1) - e1).
  pose proof (shift_m_nonneg m2 s2 ltac:(lia)) as Hmf.
  destruct (shift_m m2 s2) as [|p|p] eqn:Emf; try lia; [reflexivity|].
  destruct HK as [E0|(Hm2 & He1 & HK)].
  { exfalso. rewrite E0 in Emf. unfold shift_m in Emf.
    destruct (0 <? s2) eqn:E2; [|discriminate].
    apply Z.ltb_lt in E2. rewrite Z.div_0_l in Emf by (apply Z.pow_nonzero; lia).
    discriminate. }
  assert (Hef : shift_e e1 s2 <= 104).
  { unfold shift_e, s2. rewrite fexp_eq. destruct (0 <? _) eqn:E; lia. }
  unfold round_result.
  replace (shift_e e1 s2 <=? emax - prec) with true; [reflexivity|].
  symmetry. apply Z.leb_le. unfold emax, prec. lia.
Qed.

(** A weight in [[0, 1]] times a binary32 number does not overflow. *)
Lemma Tmul_le_one_finite (w q : T) :
  le_pow2 0 w = true -> is_finite q = true -> valid_binary prec emax q = true ->
  is_finite (Tmul w q) = true.
Proof.
  intros Hw Hq Hv.
  destruct w as [sw|sw| |[|] mw ew]; try discriminate;
    destruct q as [sq|sq| |sq mq eq]; try discriminate; try reflexivity.
  apply le_pow2_to_int in Hw.
  cbn [valid_binary] in Hv. unfold bounded, canonical_mantissa in Hv.
  apply andb_true_iff in Hv. destruct Hv as [Hc He].
  apply Z.eqb_eq in Hc. apply Z.leb_le in He.
  change (Z.pos (digits2_pos mq)) with (Zdigits2 (Zpos mq)) in Hc.
  rewrite fexp_eq in Hc. unfold emax, prec in He.
  assert (Hdw : 1 <= Zdigits2 (Zpos mw)).
  { rewrite Zdigits2_log2 by lia. pose proof (Z.log2_nonneg (Zpos mw)). lia. }
  assert (Hew : ew <= 0) by (destruct Hw as [H|[_ [H|[H _]]]]; lia).
  pose proof (le_pow2_int_value 0 (Zpos mw) ew ew ltac:(lia) Hw ltac:(lia) Hew) as Hmw.
  rewrite Z.sub_diag, Z.pow_0_r, Z.mul_1_r in Hmw.
  assert (Hmq : Zpos mq <= 2 ^ 24 - 1).
  { pose proof (pow2_digits (Zpos mq) ltac:(lia)) as [_ Hup].
    assert (2 ^ Zdigits2 (Zpos mq) <= 2 ^ 24) by (apply Z.pow_le_mono_r; lia). lia. }
  unfold Tmul, SFmul. rewrite Pos2Z.inj_mul.
  apply binary_round_aux_no_overflow; [lia | lia |].
  replace (104 - (ew + eq)) with ((0 - ew) + (104 - eq)) by lia.
  rewrite Z.pow_add_r by lia.
  assert (0 < 2 ^ (0 - ew)) by (apply Z.pow_pos_nonneg; lia).
  assert (1 <= 2 ^ (104 - eq)).
  { change 1 with (2 ^ 0). apply Z.pow_le_mono_r; lia. }
  nia.
Qed.

(** ** Operations that do not produce NaN *)

Lemma binary_normalize_not_nan (m e : Z) :
  is_nan (binary_normalize prec emax m e false) = false.
Proof.
  destruct m as [|p|p]; [reflexivity| |]; cbn [binary_normalize].
  - apply (signed_not_nan false). apply binary_round_signed.
  - apply (signed_not_nan true). apply binary_round_signed.
Qed.

(** Adding a finite term to a sum that is not NaN does not give NaN. *)
Lemma Tadd_not_nan (a t : T) :
  is_nan a = false -> is_finite t = true -> is_nan (Tadd a t) = false.
Proof.
  destruct a as [sa|sa| |sa ma ea]; try discriminate;
    destruct t as [st|st| |st mt et]; try discriminate; intros _ _;
    try (destruct sa; reflexivity); try (destruct sa, st; reflexivity).
  apply binary_normalize_not_nan.
Qed.

(** Nor does dividing by a positive finite divisor. *)
Lemma Tdiv_not_nan (s w : T) :
  is_nan s = false -> pos_finite w = true -> is_nan (Tdiv s w) = false.
Proof.
  intros Hs Hw. destruct w as [sw|sw| |[|] mw ew]; try discriminate.
  destruct s as [ss|ss| |ss ms es]; try discriminate; try reflexivity.
  apply (signed_not_nan (xorb ss false)).
  apply (Tdiv_signed ss _ false). simpl. apply Bool.eqb_reflx.
Qed.

Section Numerator.

Variable exp : T -> T.
Hypothesis Hexp : expf_spec exp.
Variables gs gr : T.
Hypothesis HG : pos_value (Tmul (Tmul T2 gs) gs) = true.
Hypothesis HR : pos_finite (Tmul (Tmul T2 gr) gr) = true.
Variable img_in : Buffer2DView.
Variables dim x y : Z.
Hypothesis Hdim : 0 <= dim <= 32767.
Hypothesis Hin : inBounds img_in x y = true.
Variable minval : T.
Hypothesis Hvalid : forall i j, inBounds img_in i j = true ->
  Tge (get img_in i j) minval = true ->
  is_finite (get img_in i j) = true /\ valid_binary prec emax (get img_in i j) = true.

(** The numerator is not NaN when the passing samples are binary32
    numbers. *)
Lemma bilateralLimited_sum_not_nan :
  is_nan (fst (bilateralLimited_sums exp img_in gs gr minval dim x y)) = false.
Proof.
  unfold bilateralLimited_sums.
  destruct (Tge (get img_in x y) minval) eqn:Hpm; [|reflexivity].
  destruct (Hvalid x y Hin Hpm) as [Hp _].
  apply (window_inv (fun acc => is_nan (fst acc) = false)
           (fun r => bilateralLimited_step exp img_in gs gr minval (get img_in x y) x y r)).
  - intros r c acc Hr Hc Ha. unfold bilateralLimited_step.
    destruct (Tge (getWithClampedRange img_in (x + c) (y + r)) minval) eqn:Eq; [|exact Ha].
    apply window_range in Hr, Hc; try exact Hdim.
    destruct (Hvalid _ _ (getWithClampedRange_inBounds img_in x y (x + c) (y + r) Hin) Eq)
      as [Hqf Hqv].
    unfold accumulate. cbn [fst]. apply Tadd_not_nan; [exact Ha|].
    apply Tmul_le_one_finite; [| exact Hqf | exact Hqv].
    apply weight_le_one; try assumption.
    + apply (Tge_not_nan _ minval). exact Eq.
    + apply sd2_nonneg; lia.
  - reflexivity.
Qed.

End Numerator.

(** * Further properties of the kernels and the entry points *)



(** X7.  Locality.  For a radius [dim < 2^31], the limited output at an
    in-bounds pixel [(x, y)] is determined by the samples that lie within
    [dim] of [(x, y)] in each coordinate and pass the test [q >= minval]:
    two input views of the same shape that agree at every such position
    where either of them holds a passing sample give the same sums and the
    same [O(x, y)].  Samples outside the window, samples below the
    threshold and NaN samples have no influence. *)
Theorem bilateralLimited_reads_valid_window
        exp img_in img_in' gs gr minval dim env env' d d' x y :
  0 <= dim < 2 ^ 31 ->
  shape img_in = shape img_in' ->
  dims_match img_in (img_out d) = true ->
  dims_match img_in' (img_out d') = true ->
  inBounds img_in x y = true ->
  (forall i j, inBounds img_in i j = true ->
     x - dim <= i <= x + dim -> y - dim <= j <= y + dim ->
     Tge (get img_in i j) minval = true \/ Tge (get img_in' i j) minval = true ->
     get img_in i j = get img_in' i j) ->
  bilateralLimited_sums exp img_in gs gr minval dim x y
  = bilateralLimited_sums exp img_in' gs gr minval dim x y /\
  get (img_out (snd (bilateralLimited exp img_in gs gr minval dim env d))) x y
  = get (img_out (snd (bilateralLimited exp img_in' gs gr minval dim env' d'))) x y.
Proof.
  intros Hdim Hs Hd Hd' Hin Heq.
  assert (Hin' : inBounds img_in' x y = true).
  { unfold shape in Hs. injection Hs as Hw Hh.
    unfold inBounds in *. rewrite <- Hw, <- Hh. exact Hin. }
  assert (E : bilateralLimited_sums exp img_in gs gr minval dim x y
              = bilateralLimited_sums exp img_in' gs gr minval dim x y)
    by (apply bilateralLimited_sums_local; assumption).
  split; [exact E|].
  rewrite !(bilateralLimited_output exp) by assumption. rewrite E. reflexivity.
Qed.

(** Scenario S5 at the corner [(0, 0)] with [dim = 1]: the sample at
    [(2, 2)], outside the window, is replaced by 99, and the sample -1 at
    [(1, 0)], below the threshold 0, by NaN. *)
Lemma bilateralLimited_reads_valid_window_witness :
  0 <= 1 < 2 ^ 31 /\
  shape S5_image = shape (put (put S5_image 2 2 (T_of_int 99)) 1 0 NaN) /\
  dims_match S5_image (img_out (fresh_device 3 3)) = true /\
  dims_match (put (put S5_image 2 2 (T_of_int 99)) 1 0 NaN) (img_out (fresh_device 3 3)) = true /\
  inBounds S5_image 0 0 = true /\
  bilateralLimited_sums expf S5_image T1 T1 T0 1 0 0
  = bilateralLimited_sums expf (put (put S5_image 2 2 (T_of_int 99)) 1 0 NaN) T1 T1 T0 1 0 0 /\
  get (img_out (snd (bilateralLimited expf S5_image T1 T1 T0 1 (env_smem T0)
                                      (fresh_device 3 3)))) 0 0
  = get (img_out (snd (bilateralLimited expf (put (put S5_image 2 2 (T_of_int 99)) 1 0 NaN)
                                        T1 T1 T0 1 (env_smem T0) (fresh_device 3 3)))) 0 0.
Proof.
  split; [lia|]. split; [by_evaluation|]. split; [by_evaluation|]. split; [by_evaluation|].
  split; [by_evaluation|].
  apply (bilateralLimited_reads_valid_window expf S5_image
           (put (put S5_image 2 2 (T_of_int 99)) 1 0 NaN) T1 T1 T0 1
           (env_smem T0) (env_smem T0) (fresh_device 3 3) (fresh_device 3 3) 0 0);
    [lia | by_evaluation | by_evaluation | by_evaluation | by_evaluation |].
  intros i j Hb Hi Hj Hor. apply inBounds_iff in Hb. simpl in Hb.
  assert (Ei : i = 0 \/ i = 1) by lia. assert (Ej : j = 0 \/ j = 1) by lia.
  destruct Ei as [-> | ->], Ej as [-> | ->]; try by_evaluation.
  vm_compute in Hor. destruct Hor; discriminate.
Defined.



(** X9.  When every sample of the image passes the test [q >= minval], the
    threshold has no effect: the limited kernel accumulates the sums of
    lines 53-71 of the unconditional kernel, and the limited entry point
    leaves the quotient [sum / sumw] of those sums in [O(x, y)]. *)
Theorem bilateralLimited_all_valid exp img_in gs gr minval dim env d x y :
  dims_match img_in (img_out d) = true ->
  inBounds img_in x y = true ->
  (forall i j, inBounds img_in i j = true -> Tge (get img_in i j) minval = true) ->
  bilateralLimited_sums exp img_in gs gr minval dim x y
  = bilateral_sums exp img_in gs gr dim x y /\
  get (img_out (snd (bilateralLimited exp img_in gs gr minval dim env d))) x y
  = quotient (bilateral_sums exp img_in gs gr dim x y).
Proof.
  intros Hd Hin Hall.
  assert (E : bilateralLimited_sums exp img_in gs gr minval dim x y
              = bilateral_sums exp img_in gs gr dim x y)
    by (apply bilateralLimited_sums_all_valid; assumption).
  split; [exact E|].
  rewrite (bilateralLimited_output exp) by assumption. rewrite E. reflexivity.
Qed.

(** Scenario S1 with [minval = 0] and [dim = 1]. *)
Lemma bilateralLimited_all_valid_witness :
  dims_match S1_image (img_out (fresh_device 2 2)) = true /\
  inBounds S1_image 0 0 = true /\
  bilateralLimited_sums expf S1_image T1 T1 T0 1 0 0 = bilateral_sums expf S1_image T1 T1 1 0 0 /\
  get (img_out (snd (bilateralLimited expf S1_image T1 T1 T0 1 (env_smem T0)
                                      (fresh_device 2 2)))) 0 0
  = quotient (bilateral_sums expf S1_image T1 T1 1 0 0).
Proof.
  split; [by_evaluation|]. split; [by_evaluation|].
  apply (bilateralLimited_all_valid expf S1_image T1 T1 T0 1 (env_smem T0)
           (fresh_device 2 2) 0 0); [by_evaluation | by_evaluation |].
  intros i j Hb. apply inBounds_iff in Hb. simpl in Hb.
  assert (Ei : i = 0 \/ i = 1) by lia. assert (Ej : j = 0 \/ j = 1) by lia.
  destruct Ei as [-> | ->], Ej as [-> | ->]; by_evaluation.
Defined.

(** X10.  The order of the threads does not matter.  Every thread of either
    kernel writes the pixel at its own coordinates only, and two threads of
    one launch that address the same pixel lie in the same block; so
    running the threads of a launch in any order (any permutation of the
    grid) leaves the same samples in the output view as the launch does. *)
Theorem launch_order_irrelevant
        exp img_in gs gr minval dim (smem : dim3 -> SharedMemory) gridDim blockDim l o i j :
  Permutation l (threads gridDim blockDim) ->
  get (run_threads (fun b => Kernel_bilateral exp img_in gs gr dim (smem b) b) blockDim l o) i j
  = get (launch (fun b => Kernel_bilateral exp img_in gs gr dim (smem b) b)
                gridDim blockDim o) i j /\
  get (run_threads (Kernel_bilateralLimited exp img_in gs gr minval dim) blockDim l o) i j
  = get (launch (Kernel_bilateralLimited exp img_in gs gr minval dim) gridDim blockDim o) i j.
Proof.
  intros Hp. split.
  - apply (launch_any_order _ _ _ _ _ _ _ _ _
             (Kernel_bilateral_writes exp img_in gs gr dim smem) Hp).
  - apply (launch_any_order _ _ _ _ _ _ _ _ _
             (Kernel_bilateralLimited_writes exp img_in gs gr minval dim) Hp).
Qed.

(** Scenario S1 in one block of 2x2 threads, run in the reverse order. *)
Lemma launch_order_irrelevant_witness :
  Permutation (rev (threads (mkDim3 1 1) (mkDim3 2 2))) (threads (mkDim3 1 1) (mkDim3 2 2)) /\
  get (run_threads (fun b => Kernel_bilateral expf S1_image T1 T1 1 (smem_of (env_smem T2) b) b)
                   (mkDim3 2 2) (rev (threads (mkDim3 1 1) (mkDim3 2 2)))
                   (constant_view 2 2 T0)) 1 0
  = get (launch (fun b => Kernel_bilateral expf S1_image T1 T1 1 (smem_of (env_smem T2) b) b)
                (mkDim3 1 1) (mkDim3 2 2) (constant_view 2 2 T0)) 1 0 /\
  get (run_threads (Kernel_bilateralLimited expf S1_image T1 T1 T0 1)
                   (mkDim3 2 2) (rev (threads (mkDim3 1 1) (mkDim3 2 2)))
                   (constant_view 2 2 T0)) 1 0
  = get (launch (Kernel_bilateralLimited expf S1_image T1 T1 T0 1)
                (mkDim3 1 1) (mkDim3 2 2) (constant_view 2 2 T0)) 1 0.
Proof.
  assert (Hp : Permutation (rev (threads (mkDim3 1 1) (mkDim3 2 2)))
                           (threads (mkDim3 1 1) (mkDim3 2 2)))
    by (apply Permutation_sym, Permutation_rev).
  split; [exact Hp|].
  apply (launch_order_irrelevant expf S1_image T1 T1 T0 1 (smem_of (env_smem T2))
           (mkDim3 1 1) (mkDim3 2 2) _ (constant_view 2 2 T0) 1 0 Hp).
Defined.

(** X11.  The radius is narrowed to [int].  The kernels use [dim] through
    [(int)dim] only, so two radii that differ by a multiple of [2^32] give
    the same sums; and for [2^31 < dim < 2^32], where [(int)dim] is
    negative, no tap is visited: both pairs of sums stay zero and the
    limited entry point leaves the NaN of [0 / 0] in every pixel of the
    image. *)
Theorem window_radius_narrowed exp img_in gs gr minval dim env d x y :
  (forall k,
     bilateral_sums exp img_in gs gr (dim + k * 2 ^ 32) x y
     = bilateral_sums exp img_in gs gr dim x y /\
     bilateralLimited_sums exp img_in gs gr minval (dim + k * 2 ^ 32) x y
     = bilateralLimited_sums exp img_in gs gr minval dim x y) /\
  (2 ^ 31 < dim < 2 ^ 32 ->
   dims_match img_in (img_out d) = true ->
   inBounds img_in x y = true ->
   bilateral_sums exp img_in gs gr dim x y = (T0, T0) /\
   bilateralLimited_sums exp img_in gs gr minval dim x y = (T0, T0) /\
   get (img_out (snd (bilateralLimited exp img_in gs gr minval dim env d))) x y = NaN).
Proof.
  split; [intros k; apply sums_period|].
  intros Hdim Hd Hin.
  destruct (sums_narrowed exp img_in gs gr minval dim x y Hdim) as [E1 E2].
  split; [exact E1|]. split; [exact E2|].
  rewrite (bilateralLimited_output exp) by assumption. rewrite E2. reflexivity.
Qed.

(** A radius of [2^32 - 1] on scenario S1. *)
Lemma window_radius_narrowed_witness :
  2 ^ 31 < 4294967295 < 2 ^ 32 /\
  dims_match S1_image (img_out (fresh_device 2 2)) = true /\
  inBounds S1_image 0 0 = true /\
  (bilateral_sums expf S1_image T1 T1 (4294967295 + 1 * 2 ^ 32) 0 0
   = bilateral_sums expf S1_image T1 T1 4294967295 0 0 /\
   bilateralLimited_sums expf S1_image T1 T1 T0 (4294967295 + 1 * 2 ^ 32) 0 0
   = bilateralLimited_sums expf S1_image T1 T1 T0 4294967295 0 0) /\
  bilateral_sums expf S1_image T1 T1 4294967295 0 0 = (T0, T0) /\
  bilateralLimited_sums expf S1_image T1 T1 T0 4294967295 0 0 = (T0, T0) /\
  get (img_out (snd (bilateralLimited expf S1_image T1 T1 T0 4294967295 (env_smem T0)
                                      (fresh_device 2 2)))) 0 0 = NaN.
Proof.
  assert (Hdim : 2 ^ 31 < 4294967295 < 2 ^ 32) by lia.
  assert (Hd : dims_match S1_image (img_out (fresh_device 2 2)) = true) by by_evaluation.
  assert (Hin : inBounds S1_image 0 0 = true) by by_evaluation.
  split; [exact Hdim|]. split; [exact Hd|]. split; [exact Hin|].
  destruct (window_radius_narrowed expf S1_image T1 T1 T0 4294967295 (env_smem T0)
              (fresh_device 2 2) 0 0) as [H1 H2].
  split; [exact (H1 1) | exact (H2 Hdim Hd Hin)].
Defined.

(** X12.  NaN at the centre or as the threshold.  The test [p >= minval] of
    line 115 fails when [p] or [minval] is NaN, so the limited entry point
    leaves NaN in every in-bounds pixel that holds NaN, and in every pixel
    of the image when [minval] is NaN. *)
Theorem bilateralLimited_nan exp img_in gs gr minval dim env d x y :
  dims_match img_in (img_out d) = true ->
  inBounds img_in x y = true ->
  is_nan (get img_in x y) = true \/ is_nan minval = true ->
  get (img_out (snd (bilateralLimited exp img_in gs gr minval dim env d))) x y = NaN.
Proof.
  intros Hd Hin Hnan.
  rewrite (bilateralLimited_output exp) by assumption.
  rewrite bilateralLimited_sums_below; [reflexivity|].
  destruct Hnan as [H|H].
  - destruct (get img_in x y); try discriminate. apply Tge_nan_l.
  - destruct minval; try discriminate. apply Tge_nan_r.
Qed.

(** Scenario S1 with a NaN threshold. *)
Lemma bilateralLimited_nan_witness :
  dims_match S1_image (img_out (fresh_device 2 2)) = true /\
  inBounds S1_image 1 0 = true /\
  (is_nan (get S1_image 1 0) = true \/ is_nan NaN = true) /\
  get (img_out (snd (bilateralLimited expf S1_image T1 T1 NaN 1 (env_smem T0)
                                      (fresh_device 2 2)))) 1 0 = NaN.
Proof.
  split; [by_evaluation|]. split; [by_evaluation|]. split; [right; reflexivity|].
  apply (bilateralLimited_nan expf S1_image T1 T1 NaN 1 (env_smem T0) (fresh_device 2 2) 1 0);
    [by_evaluation | by_evaluation | right; reflexivity].
Defined.

(** X13.  An empty image.  When the input view has no pixel (width or
    height zero) no thread runs: each entry point leaves the output view as
    it was. *)
Theorem empty_image_untouched exp img_in gs gr minval dim env d :
  width img_in = 0 \/ height img_in = 0 ->
  img_out (snd (bilateral exp img_in gs gr dim env d)) = img_out d /\
  img_out (snd (bilateralLimited exp img_in gs gr minval dim env d)) = img_out d.
Proof.
  intros He.
  assert (Ht : threads (snd (InitDimFromBufferOver img_in)) (fst (InitDimFromBufferOver img_in))
               = []).
  { unfold InitDimFromBufferOver, threads. cbn [fst snd dim_x dim_y].
    destruct He as [-> | ->].
    - change (indices ((0 + 32 - 1) / 32)) with (@nil Z).
      induction (indices ((height img_in + 32 - 1) / 32)) as [|b l IH]; [reflexivity|].
      cbn [flat_map app]. exact IH.
    - reflexivity. }
  unfold bilateral, bilateralLimited.
  destruct (negb (dims_match img_in (img_out d))); [split; reflexivity|].
  destruct (InitDimFromBufferOver img_in) as [bd gd]. cbn [fst snd] in Ht.
  unfold launch. rewrite Ht. cbn [fold_left].
  destruct (negb (sync_status env =? cudaSuccess)); split; reflexivity.
Qed.

(** A view of width 0 and height 5, into an output view that holds ones. *)
Lemma empty_image_untouched_witness :
  (width (constant_view 0 5 T0) = 0 \/ height (constant_view 0 5 T0) = 0) /\
  img_out (snd (bilateral expf (constant_view 0 5 T0) T1 T1 1 (env_smem T2)
                          (mkDevice (constant_view 0 5 T1) [])))
  = constant_view 0 5 T1 /\
  img_out (snd (bilateralLimited expf (constant_view 0 5 T0) T1 T1 T0 1 (env_smem T2)
                                 (mkDevice (constant_view 0 5 T1) [])))
  = constant_view 0 5 T1.
Proof.
  split; [left; reflexivity|].
  apply (empty_image_untouched expf (constant_view 0 5 T0) T1 T1 T0 1 (env_smem T2)
           (mkDevice (constant_view 0 5 T1) [])).
  left. reflexivity.
Defined.

(** X14.  The weight of a tap.  With [2*gs*gs] positive and [2*gr*gr]
    positive and finite, for a finite centre value [p], a sample [q] that is
    not NaN and offsets up to 32767, the weight [w = sw * iw] of lines
    62-67 lies in [[0, 1]] (in particular [w >= 0] holds, and [w] is
    neither NaN nor infinite); the weight of the centre tap ([q] the centre
    itself, offset [(0, 0)]) is exactly 1. *)
Theorem weight_in_unit_interval exp gs gr p q r c :
  expf_spec exp ->
  pos_value (Tmul (Tmul T2 gs) gs) = true ->
  pos_finite (Tmul (Tmul T2 gr) gr) = true ->
  is_finite p = true ->
  is_nan q = false ->
  - 32767 <= r <= 32767 -> - 32767 <= c <= 32767 ->
  (Tge (weight exp gs gr p q r c) T0 = true /\
   le_pow2 0 (weight exp gs gr p q r c) = true) /\
  weight exp gs gr p p 0 0 = T1.
Proof.
  intros Hexp HG HR Hp Hq Hr Hc.
  assert (Hw : le_pow2 0 (weight exp gs gr p q r c) = true)
    by (apply weight_le_one; try assumption; apply sd2_nonneg; assumption).
  split; [split; [|exact Hw] | apply weight_centre; assumption].
  destruct (weight exp gs gr p q r c) as [s|s| |[|] m e]; try discriminate; reflexivity.
Qed.

(** The weight of the neighbour 2.0 of the centre value 1.0 at the offset
    (1, -1), with [gs = gr = 1] and the reference exponential. *)
Lemma weight_in_unit_interval_witness :
  expf_spec expf /\
  pos_value (Tmul (Tmul T2 T1) T1) = true /\
  pos_finite (Tmul (Tmul T2 T1) T1) = true /\
  is_finite T1 = true /\
  is_nan T2 = false /\
  - 32767 <= 1 <= 32767 /\ - 32767 <= -1 <= 32767 /\
  (Tge (weight expf T1 T1 T1 T2 1 (-1)) T0 = true /\
   le_pow2 0 (weight expf T1 T1 T1 T2 1 (-1)) = true) /\
  weight expf T1 T1 T1 T1 0 0 = T1.
Proof.
  split; [exact expf_meets_spec|]. split; [by_evaluation|]. split; [by_evaluation|].
  split; [reflexivity|]. split; [reflexivity|]. split; [lia|]. split; [lia|].
  apply (weight_in_unit_interval expf T1 T1 T1 T2 1 (-1));
    [exact expf_meets_spec | by_evaluation | by_evaluation | reflexivity | reflexivity
     | lia | lia].
Defined.

(** X15.  The divisor stays in range.  With [2*gs*gs] positive, [2*gr*gr]
    positive and finite, [dim <= 32767] and a finite centre sample, the
    accumulator [sumw] never leaves [[0, 2^25]], whatever the number of
    taps: it is finite at the final division, in the limited kernel for
    every image, in the unconditional kernel for an image without NaN.
    With [p >= minval] the divisor of the limited kernel is also at least
    1. *)
Theorem sumw_in_range exp img_in gs gr minval dim x y :
  expf_spec exp ->
  pos_value (Tmul (Tmul T2 gs) gs) = true ->
  pos_finite (Tmul (Tmul T2 gr) gr) = true ->
  0 <= dim <= 32767 ->
  inBounds img_in x y = true ->
  is_finite (get img_in x y) = true ->
  (le_pow2 25 (snd (bilateralLimited_sums exp img_in gs gr minval dim x y)) = true /\
   is_finite (snd (bilateralLimited_sums exp img_in gs gr minval dim x y)) = true) /\
  (Tge (get img_in x y) minval = true ->
   ge_pow2 0 (snd (bilateralLimited_sums exp img_in gs gr minval dim x y)) = true) /\
  ((forall i j, inBounds img_in i j = true -> is_nan (get img_in i j) = false) ->
   ge_pow2 0 (snd (bilateral_sums exp img_in gs gr dim x y)) = true /\
   le_pow2 25 (snd (bilateral_sums exp img_in gs gr dim x y)) = true /\
   is_finite (snd (bilateral_sums exp img_in gs gr dim x y)) = true).
Proof.
  intros Hexp HG HR Hdim Hin Hp.
  assert (HL : le_pow2 25 (snd (bilateralLimited_sums exp img_in gs gr minval dim x y)) = true)
    by (apply bilateralLimited_sumw_le25; assumption).
  split; [split; [exact HL | exact (le_pow2_finite 25 _ HL)]|]. split.
  - intros Hpm. apply bilateralLimited_sumw_ge_one; assumption.
  - intros Hnan.
    assert (HU : le_pow2 25 (snd (bilateral_sums exp img_in gs gr dim x y)) = true)
      by (apply bilateral_sumw_le25; assumption).
    split; [apply bilateral_sumw_ge_one; assumption|].
    split; [exact HU | exact (le_pow2_finite 25 _ HU)].
Qed.

(** Scenario S2 (5x5 of 7.0, [dim = 1], [gs = gr = 1], [minval = 0]) at the
    pixel [(2, 2)]. *)
Lemma sumw_in_range_witness :
  expf_spec expf /\
  pos_value (Tmul (Tmul T2 T1) T1) = true /\
  pos_finite (Tmul (Tmul T2 T1) T1) = true /\
  0 <= 1 <= 32767 /\
  inBounds S2_image 2 2 = true /\
  is_finite (get S2_image 2 2) = true /\
  Tge (get S2_image 2 2) T0 = true /\
  (forall i j, inBounds S2_image i j = true -> is_nan (get S2_image i j) = false) /\
  (le_pow2 25 (snd (bilateralLimited_sums expf S2_image T1 T1 T0 1 2 2)) = true /\
   is_finite (snd (bilateralLimited_sums expf S2_image T1 T1 T0 1 2 2)) = true) /\
  ge_pow2 0 (snd (bilateralLimited_sums expf S2_image T1 T1 T0 1 2 2)) = true /\
  (ge_pow2 0 (snd (bilateral_sums expf S2_image T1 T1 1 2 2)) = true /\
   le_pow2 25 (snd (bilateral_sums expf S2_image T1 T1 1 2 2)) = true /\
   is_finite (snd (bilateral_sums expf S2_image T1 T1 1 2 2)) = true).
Proof.
  assert (Hnan : forall i j, inBounds S2_image i j = true -> is_nan (get S2_image i j) = false)
    by (intros i j _; reflexivity).
  assert (Hpm : Tge (get S2_image 2 2) T0 = true) by by_evaluation.
  split; [exact expf_meets_spec|]. split; [by_evaluation|]. split; [by_evaluation|].
  split; [lia|]. split; [by_evaluation|]. split; [by_evaluation|]. split; [exact Hpm|].
  split; [exact Hnan|].
  destruct (sumw_in_range expf S2_image T1 T1 T0 1 2 2) as (H1 & H2 & H3);
    [exact expf_meets_spec | by_evaluation | by_evaluation | lia | by_evaluation
     | by_evaluation |].
  split; [exact H1|]. split; [exact (H2 Hpm) | exact (H3 Hnan)].
Defined.

(** X16.  Shift invariance away from the border.  Let the window of radius
    [dim < 2^31] around [(x, y)] lie inside the input view [I], and the
    window around [(x', y')] inside the input view [I'], and let the two
    windows hold the same samples, offset by offset.  Then the limited
    entry point leaves the same value in [O(x, y)] of the one call and in
    [O'(x', y')] of the other. *)
Theorem bilateralLimited_shift_invariant
        exp img_in img_in' gs gr minval dim env env' d d' x y x' y' :
  0 <= dim < 2 ^ 31 ->
  dims_match img_in (img_out d) = true ->
  dims_match img_in' (img_out d') = true ->
  dim <= x < width img_in - dim -> dim <= y < height img_in - dim ->
  dim <= x' < width img_in' - dim -> dim <= y' < height img_in' - dim ->
  (forall r c, - dim <= r <= dim -> - dim <= c <= dim ->
     get img_in (x + c) (y + r) = get img_in' (x' + c) (y' + r)) ->
  bilateralLimited_sums exp img_in gs gr minval dim x y
  = bilateralLimited_sums exp img_in' gs gr minval dim x' y' /\
  get (img_out (snd (bilateralLimited exp img_in gs gr minval dim env d))) x y
  = get (img_out (snd (bilateralLimited exp img_in' gs gr minval dim env' d'))) x' y'.
Proof.
  intros Hdim Hd Hd' Hx Hy Hx' Hy' Hsame.
  assert (Hin : inBounds img_in x y = true) by (apply inBounds_iff; lia).
  assert (Hin' : inBounds img_in' x' y' = true) by (apply inBounds_iff; lia).
  assert (E : bilateralLimited_sums exp img_in gs gr minval dim x y
              = bilateralLimited_sums exp img_in' gs gr minval dim x' y').
  { apply bilateralLimited_sums_taps; [exact Hdim | |].
    - pose proof (Hsame 0 0 ltac:(lia) ltac:(lia)) as H0.
      rewrite !Z.add_0_r in H0. exact H0.
    - intros r c Hr Hc.
      rewrite (getWithClampedRange_interior img_in dim), (getWithClampedRange_interior img_in' dim)
        by assumption.
      apply Hsame; assumption. }
  split; [exact E|].
  rewrite !(bilateralLimited_output exp) by assumption. rewrite E. reflexivity.
Qed.

(** Scenario S5 at its centre, and the same nine samples one row lower and
    one column to the right inside a 4x4 image. *)
Lemma bilateralLimited_shift_invariant_witness :
  0 <= 1 < 2 ^ 31 /\
  dims_match S5_image (img_out (fresh_device 3 3)) = true /\
  dims_match S5_shifted (img_out (fresh_device 4 4)) = true /\
  (1 <= 1 < width S5_image - 1 /\ 1 <= 1 < height S5_image - 1) /\
  (1 <= 2 < width S5_shifted - 1 /\ 1 <= 2 < height S5_shifted - 1) /\
  bilateralLimited_sums expf S5_image T1 T1 T0 1 1 1
  = bilateralLimited_sums expf S5_shifted T1 T1 T0 1 2 2 /\
  get (img_out (snd (bilateralLimited expf S5_image T1 T1 T0 1 (env_smem T0)
                                      (fresh_device 3 3)))) 1 1
  = get (img_out (snd (bilateralLimited expf S5_shifted T1 T1 T0 1 (env_smem T0)
                                        (fresh_device 4 4)))) 2 2.
Proof.
  split; [lia|]. split; [by_evaluation|]. split; [by_evaluation|].
  split; [simpl; lia|]. split; [simpl; lia|].
  apply (bilateralLimited_shift_invariant expf S5_image S5_shifted T1 T1 T0 1
           (env_smem T0) (env_smem T0) (fresh_device 3 3) (fresh_device 4 4) 1 1 2 2);
    [lia | by_evaluation | by_evaluation | simpl; lia | simpl; lia | simpl; lia | simpl; lia |].
  intros r c Hr Hc.
  assert (Er : r = -1 \/ r = 0 \/ r = 1) by lia.
  assert (Ec : c = -1 \/ c = 0 \/ c = 1) by lia.
  destruct Er as [-> | [-> | ->]], Ec as [-> | [-> | ->]]; by_evaluation.
Defined.

(** X17.  Zeros stay zero.  With [2*gs*gs] positive, [2*gr*gr] positive and
    finite and [dim <= 32767]: if [I(x, y) >= minval] and every sample of
    the window of [(x, y)] that passes the test [q >= minval] is a zero
    ([q == 0]), the limited entry point leaves exactly [+0] in [O(x, y)]. *)
Theorem bilateralLimited_zero_window exp img_in gs gr minval dim env d x y :
  expf_spec exp ->
  pos_value (Tmul (Tmul T2 gs) gs) = true ->
  pos_finite (Tmul (Tmul T2 gr) gr) = true ->
  0 <= dim <= 32767 ->
  dims_match img_in (img_out d) = true ->
  inBounds img_in x y = true ->
  Tge (get img_in x y) minval = true ->
  (forall i j, inBounds img_in i j = true ->
     x - dim <= i <= x + dim -> y - dim <= j <= y + dim ->
     Tge (get img_in i j) minval = true -> Teq (get img_in i j) T0 = true) ->
  get (img_out (snd (bilateralLimited exp img_in gs gr minval dim env d))) x y = T0.
Proof.
  intros Hexp HG HR Hdim Hd Hin Hpm Hzeros.
  assert (Hp : is_finite (get img_in x y) = true)
    by (apply (centre_finite img_in dim x y Hdim Hin minval Hpm Hzeros)).
  rewrite (bilateralLimited_output exp) by assumption.
  pose proof (bilateralLimited_sum_zero exp Hexp gs gr HG HR img_in dim x y Hdim Hin
                minval Hpm Hzeros) as HS.
  assert (H1 : ge_pow2 0 (snd (bilateralLimited_sums exp img_in gs gr minval dim x y)) = true)
    by (apply bilateralLimited_sumw_ge_one; assumption).
  assert (H25 : le_pow2 25 (snd (bilateralLimited_sums exp img_in gs gr minval dim x y)) = true)
    by (apply bilateralLimited_sumw_le25; assumption).
  unfold quotient. rewrite HS.
  destruct (snd (bilateralLimited_sums exp img_in gs gr minval dim x y))
    as [s|s| |[|] m e]; try discriminate; try (destruct s; discriminate).
  reflexivity.
Qed.

(** The image [[+0, -1], [-1, -0]] with [minval = 0] and [dim = 1], into an
    output view that holds ones. *)
Lemma bilateralLimited_zero_window_witness :
  expf_spec expf /\
  pos_value (Tmul (Tmul T2 T1) T1) = true /\
  pos_finite (Tmul (Tmul T2 T1) T1) = true /\
  0 <= 1 <= 32767 /\
  dims_match zeros_image (constant_view 2 2 T1) = true /\
  inBounds zeros_image 1 1 = true /\
  Tge (get zeros_image 1 1) T0 = true /\
  get (img_out (snd (bilateralLimited expf zeros_image T1 T1 T0 1 (env_smem T1)
                                      (mkDevice (constant_view 2 2 T1) [])))) 1 1 = T0.
Proof.
  split; [exact expf_meets_spec|]. split; [by_evaluation|]. split; [by_evaluation|].
  split; [lia|]. split; [by_evaluation|]. split; [by_evaluation|]. split; [by_evaluation|].
  apply (bilateralLimited_zero_window expf zeros_image T1 T1 T0 1 (env_smem T1)
           (mkDevice (constant_view 2 2 T1) []) 1 1);
    [exact expf_meets_spec | by_evaluation | by_evaluation | lia | by_evaluation
     | by_evaluation | by_evaluation |].
  intros i j Hb _ _. apply inBounds_iff in Hb. simpl in Hb.
  assert (Ei : i = 0 \/ i = 1) by lia. assert (Ej : j = 0 \/ j = 1) by lia.
  destruct Ei as [-> | ->], Ej as [-> | ->]; vm_compute; congruence.
Defined.

(** X18.  NaN marks the invalid pixels, and only them.  With [2*gs*gs]
    positive, [2*gr*gr] positive and finite and [dim <= 32767], on an image
    whose samples that pass the test [q >= minval] are all finite binary32
    numbers: the output [O(x, y)] of the limited entry point is NaN exactly
    when the centre fails the test [I(x, y) >= minval] (it is below the
    threshold, or NaN). *)
Theorem bilateralLimited_nan_marks_invalid exp img_in gs gr minval dim env d x y :
  expf_spec exp ->
  pos_value (Tmul (Tmul T2 gs) gs) = true ->
  pos_finite (Tmul (Tmul T2 gr) gr) = true ->
  0 <= dim <= 32767 ->
  dims_match img_in (img_out d) = true ->
  inBounds img_in x y = true ->
  (forall i j, inBounds img_in i j = true -> Tge (get img_in i j) minval = true ->
     is_finite (get img_in i j) = true /\ valid_binary prec emax (get img_in i j) = true) ->
  is_nan (get (img_out (snd (bilateralLimited exp img_in gs gr minval dim env d))) x y)
  = negb (Tge (get img_in x y) minval).
Proof.
  intros Hexp HG HR Hdim Hd Hin Hvalid.
  rewrite (bilateralLimited_output exp) by assumption.
  destruct (Tge (get img_in x y) minval) eqn:Hpm.
  - destruct (Hvalid x y Hin Hpm) as [Hp _].
    assert (HS : is_nan (fst (bilateralLimited_sums exp img_in gs gr minval dim x y)) = false)
      by (apply bilateralLimited_sum_not_nan; assumption).
    assert (H1 : ge_pow2 0 (snd (bilateralLimited_sums exp img_in gs gr minval dim x y)) = true)
      by (apply bilateralLimited_sumw_ge_one; assumption).
    assert (H25 : le_pow2 25 (snd (bilateralLimited_sums exp img_in gs gr minval dim x y)) = true)
      by (apply bilateralLimited_sumw_le25; assumption).
    unfold quotient. cbn [negb]. apply Tdiv_not_nan; [exact HS|].
    destruct (snd (bilateralLimited_sums exp img_in gs gr minval dim x y))
      as [s|s| |[|] m e]; try discriminate; try (destruct s; discriminate).
    reflexivity.
  - rewrite bilateralLimited_sums_below by exact Hpm. reflexivity.
Qed.

(** Scenario S5 ([minval = 0], [dim = 1]) at the centre, which passes, and
    at [(1, 0)], which holds -1. *)
Lemma bilateralLimited_nan_marks_invalid_witness :
  expf_spec expf /\
  pos_value (Tmul (Tmul T2 T1) T1) = true /\
  pos_finite (Tmul (Tmul T2 T1) T1) = true /\
  0 <= 1 <= 32767 /\
  dims_match S5_image (img_out (fresh_device 3 3)) = true /\
  (inBounds S5_image 1 1 = true /\ inBounds S5_image 1 0 = true) /\
  is_nan (get (img_out (snd (bilateralLimited expf S5_image T1 T1 T0 1 (env_smem T0)
                                              (fresh_device 3 3)))) 1 1)
  = negb (Tge (get S5_image 1 1) T0) /\
  is_nan (get (img_out (snd (bilateralLimited expf S5_image T1 T1 T0 1 (env_smem T0)
                                              (fresh_device 3 3)))) 1 0)
  = negb (Tge (get S5_image 1 0) T0).
Proof.
  assert (Hvalid : forall i j, inBounds S5_image i j = true -> Tge (get S5_image i j) T0 = true ->
            is_finite (get S5_image i j) = true /\
            valid_binary prec emax (get S5_image i j) = true).
  { intros i j Hb _. apply inBounds_iff in Hb. simpl in Hb.
    assert (Ei : i = 0 \/ i = 1 \/ i = 2) by lia.
    assert (Ej : j = 0 \/ j = 1 \/ j = 2) by lia.
    destruct Ei as [-> | [-> | ->]], Ej as [-> | [-> | ->]]; split; by_evaluation. }
  split; [exact expf_meets_spec|]. split; [by_evaluation|]. split; [by_evaluation|].
  split; [lia|]. split; [by_evaluation|]. split; [split; by_evaluation|].
  split.
  - apply (bilateralLimited_nan_marks_invalid expf S5_image T1 T1 T0 1 (env_smem T0)
             (fresh_device 3 3) 1 1);
      [exact expf_meets_spec | by_evaluation | by_evaluation | lia | by_evaluation
       | by_evaluation | exact Hvalid].
  - apply (bilateralLimited_nan_marks_invalid expf S5_image T1 T1 T0 1 (env_smem T0)
             (fresh_device 3 3) 1 0);
      [exact expf_meets_spec | by_evaluation | by_evaluation | lia | by_evaluation
       | by_evaluation | exact Hvalid].
Defined.
